(** * conc: structured concurrency for Go

    A shallow embedding of the task group ([conc.WaitGroup]) and of the
    parallel map ([iter.Map], [iter.MapErr]) built on it.

    Goroutines are trees of atomic actions over a shared memory; a run of
    the program is driven by an explicit schedule, one tick at a time, so
    every statement below that quantifies over schedules speaks about every
    interleaving of the goroutines. *)

From stdpp Require Import base list strings.
From Stdlib Require Import Lia.

(** ** Text *)

(** [strings.Contains(s, substr)]: [substr] occurs in [s]. *)
Fixpoint Contains (s substr : string) : bool :=
  String.prefix substr s ||
  match s with
  | EmptyString => false
  | String _ s' => Contains s' substr
  end.

(** ** Outcome of a blocking call

    A call that joins goroutines either returns, or propagates a panic, or
    is still blocked when the schedule ends. *)
Inductive result (A : Type) : Type :=
| Returns (a : A)
| Panics (v : string)
| Blocked.
Arguments Returns {A} a.
Arguments Panics {A} v.
Arguments Blocked {A}.

(** A panic payload is kept as its text, the [%v] formatting of the value
    passed to [panic]. *)
Definition payload := string.

(** ** Goroutines over a shared memory *)
Section Runtime.
Context {M : Type}.

(** The body of a goroutine: what is left to run of a [func()].
    [Atomic enabled effect next] is one indivisible action: it can run
    only in a memory where [enabled] holds (a [Lock] on a held mutex
    cannot), it changes the memory by [effect], and it continues as
    [next] of the memory it ran in (the values it read). *)
Inductive proc : Type :=
| Ret
| Panic (v : payload)
| Atomic (enabled : M → bool) (effect : M → M) (next : M → proc).

Inductive goroutine : Type :=
| Running (p : proc)
| Exited.

(** Modelled from the spec: CapturedFailure, the wrapper of a panic
    payload that the task group stores and later surfaces; its source
    is not part of src/. *)
Record CapturedFailure : Type := Recovered { Value : payload }.

(** Modelled from the spec: the text of a CapturedFailure surfaced as an
    error contains the text of the payload. *)
Definition AsError (c : CapturedFailure) : string :=
  "panic: " +:+ Value c.

(** Modelled from the spec: the task group (Go type [WaitGroup], used by
    the tests as [wg.Go], [wg.Wait], [wg.WaitSafe]; its source is not
    part of src/): a count of outstanding units and a single slot for
    the first captured abnormal termination. *)
Record WaitGroup : Type := mkWaitGroup {
  outstanding : nat;
  slot : option CapturedFailure
}.

Definition NewWaitGroup : WaitGroup :=
  {| outstanding := 0; slot := None |}.

(** The program state: the shared memory, the task group, the goroutines
    it has started (in spawn order, a goroutine keeps its position after
    it exits) and the units the caller has still to spawn before it
    joins. *)
Record machine : Type := mkMachine {
  mem : M;
  wg : WaitGroup;
  goroutines : list goroutine;
  to_spawn : list proc
}.

(** Modelled from the spec: Spawn registers the unit as outstanding and
    starts it on its own thread of execution. *)
Definition Go (f : proc) (m : machine) : machine :=
  {| mem := mem m;
     wg := {| outstanding := S (outstanding (wg m)); slot := slot (wg m) |};
     goroutines := goroutines m ++ [Running f];
     to_spawn := to_spawn m |}.

(** Modelled from the spec: the slot is written by compare-and-set, only
    while it is empty. *)
Definition capture (v : payload) (s : option CapturedFailure)
  : option CapturedFailure :=
  match s with
  | None => Some (Recovered v)
  | Some c => Some c
  end.

(** Modelled from the spec: the guarded wrapper around a unit. When the
    unit ends, by return ([fault = None]) or by panic, the wrapper
    stores a fault in the slot and then signals completion. *)
Definition complete (k : nat) (fault : option payload) (m : machine)
  : machine :=
  {| mem := mem m;
     wg := {| outstanding := pred (outstanding (wg m));
              slot := match fault with
                      | Some v => capture v (slot (wg m))
                      | None => slot (wg m)
                      end |};
     goroutines := <[k := Exited]> (goroutines m);
     to_spawn := to_spawn m |}.

(** One goroutine performs one atomic action. *)
Definition act (k : nat) (effect : M → M) (next : M → proc) (m : machine)
  : machine :=
  {| mem := effect (mem m);
     wg := wg m;
     goroutines := <[k := Running (next (mem m))]> (goroutines m);
     to_spawn := to_spawn m |}.

(** The scheduler picks who moves: the caller, which spawns its next
    unit, or the [k]-th goroutine. A pick that cannot move (the caller
    has nothing left to spawn, the goroutine has exited, does not exist
    or is blocked) leaves the state as it is. *)
Inductive tick : Type :=
| caller
| worker (k : nat).

Definition step (t : tick) (m : machine) : machine :=
  match t with
  | caller =>
      match to_spawn m with
      | [] => m
      | f :: rest =>
          Go f {| mem := mem m; wg := wg m; goroutines := goroutines m;
                  to_spawn := rest |}
      end
  | worker k =>
      match goroutines m !! k with
      | Some (Running Ret) => complete k None m
      | Some (Running (Panic v)) => complete k (Some v) m
      | Some (Running (Atomic enabled effect next)) =>
          if enabled (mem m) then act k effect next m else m
      | Some Exited | None => m
      end
  end.

Definition exec (sched : list tick) (m : machine) : machine :=
  fold_left (fun m t => step t m) sched m.

(** The caller has spawned all its units and none is outstanding. *)
Definition drained (m : machine) : bool :=
  match to_spawn m with
  | [] => Nat.eqb (outstanding (wg m)) 0
  | _ :: _ => false
  end.

(** Modelled from the spec: Join blocks until every registered unit has
    finished, then re-raises the captured failure if there is one. *)
Definition Wait (m : machine) : result unit :=
  if drained m then
    match slot (wg m) with
    | Some c => Panics (Value c)
    | None => Returns tt
    end
  else Blocked.

(** Modelled from the spec: JoinSafe blocks like Join and returns the
    captured failure, or no value, as an ordinary result. *)
Definition WaitSafe (m : machine) : result (option CapturedFailure) :=
  if drained m then Returns (slot (wg m)) else Blocked.

(** The caller starts with a fresh task group and the units it will
    spawn, in order, before it joins. *)
Definition start (h : M) (units : list proc) : machine :=
  {| mem := h; wg := NewWaitGroup; goroutines := []; to_spawn := units |}.

End Runtime.

Arguments proc M : clear implicits.
Arguments goroutine M : clear implicits.
Arguments machine M : clear implicits.

(** ** Errors *)
Module errors.

(** Modelled from the spec: the contract of the aggregated error of the
    library [lib/errors] that map.go imports (the library is not part of
    src/). Go's [error] is [option error], nil is [None]; [Error] is the
    method [Error()], the textual form. Combining zero failures yields no
    error; combining one or more yields a value whose textual form
    includes the text of every underlying failure: that of the failure
    appended, and whatever the text of the errors combined so far
    included. *)
Class Lib : Type := {
  error : Type;
  Error : error → string;
  Append : option error → option error → option error;
  Append_nil : Append None None = None;
  Append_error : ∀ errs err, is_Some (Append errs (Some err));
  Append_text : ∀ errs err c,
    Append errs (Some err) = Some c →
    Contains (Error c) (Error err) = true;
  Append_keeps : ∀ a err c s,
    Append (Some a) (Some err) = Some c →
    Contains (Error a) s = true → Contains (Error c) s = true
}.

(** An error library that meets the contract: an error is a plain
    failure with its text, or the combination of an error with one more,
    whose text joins the two texts with a separator. *)
Inductive joined : Type :=
| New (text : string)
| multiError (errs : joined) (err : joined).

Definition separator : string := String (Ascii.ascii_of_nat 10) EmptyString.

Fixpoint joined_Error (e : joined) : string :=
  match e with
  | New text => text
  | multiError errs err =>
      joined_Error errs +:+ separator +:+ joined_Error err
  end.

Definition joined_Append (errs : option joined) (err : option joined)
  : option joined :=
  match errs, err with
  | None, _ => err
  | Some a, None => Some a
  | Some a, Some b => Some (multiError a b)
  end.

End errors.

(** ** Package iter *)
Module iter.
Import errors.

(** A call of a Go function returns a value, panics, or never returns;
    [call r k] is the goroutine that makes a call with outcome [r] and
    goes on as [k] of the value. *)
Definition call {M A : Type} (r : result A) (k : A → proc M) : proc M :=
  match r with
  | Returns a => k a
  | Panics v => Panic v
  | Blocked => Atomic (fun _ => false) (fun h => h) (fun _ => Ret)
  end.

(** The payload of the run-time panic of an index out of range. *)
Definition index_out_of_range : payload :=
  "runtime error: index out of range".

(** A transform that returns on every argument. *)
Definition returning {A B : Type} (g : A → B) : A → result B :=
  fun a => Returns (g a).

(** Modelled from the spec: the configuration of the bounded iterator
    (Go type [Iterator], embedded in [Mapper]; its source is not part of
    src/): the maximum number of goroutines, zero for the default. *)
Record Iterator : Type := mkIterator { MaxGoroutines : nat }.

(** Modelled from the spec: ForEachIdx invokes [f i (input[i])] for
    every index of [input] exactly once on a task group, and blocks
    until all invocations have completed; a panic of an invocation is
    re-raised once all have finished. Each index is given a unit of its
    own: the runs under any cap on the number of active workers are
    among the runs of this model, so what holds for every schedule here
    holds under every cap. The result is the shared memory the
    invocations leave behind. *)
Definition ForEachIdx {M T : Type} (iter : Iterator) (sched : list tick)
    (input : list T) (f : nat → T → proc M) (h : M) : result M :=
  let m := exec sched (start h (imap f input)) in
  match Wait m with
  | Returns _ => Returns (mem m)
  | Panics v => Panics v
  | Blocked => Blocked
  end.

Section Mapper.
Context {T R : Type} `{!Inhabited R} `{!Lib}.

Record Mapper : Type := mkMapper { Iterator_ : Iterator }.

(** [make([]R, n)]: [n] zero values. *)
Definition make (n : nat) : list R := replicate n inhabitant.

(** The function literal of [Mapper.Map]: [res[i] = f(t)]. The memory
    shared by the invocations is [res]; a store at an index out of range
    stores nothing and panics. *)
Definition Map_func (f : T → result R) (i : nat) (t : T) : proc (list R) :=
  call (f t) (fun r =>
  Atomic (fun _ => true) (fun res => <[i := r]> res) (fun res =>
  if i <? length res then Ret else Panic index_out_of_range)).

(** [Mapper.Map]. *)
Definition Mapper_Map (m : Mapper) (sched : list tick) (input : list T)
    (f : T → result R) : result (list R) :=
  let res := make (length input) in
  ForEachIdx (Iterator_ m) sched input (Map_func f) res.

(** [Map]: the zero [Mapper]. *)
Definition Map (sched : list tick) (input : list T) (f : T → result R)
  : result (list R) :=
  Mapper_Map {| Iterator_ := {| MaxGoroutines := 0 |} |} sched input f.

(** The variables of [Mapper.MapErr] that its invocations share;
    [errMux] is true while the mutex is held. *)
Record vars : Type := mkVars {
  res : list R;
  errMux : bool;
  errs : option error
}.

(** [res[i] = r], then [k]; a store at an index out of range stores
    nothing and panics. *)
Definition store_res (i : nat) (r : R) (k : proc vars) : proc vars :=
  Atomic (fun _ => true)
    (fun h => {| res := <[i := r]> (res h); errMux := errMux h;
                 errs := errs h |})
    (fun h => if i <? length (res h) then k else Panic index_out_of_range).

(** [errMux.Lock()], then [k]: waits until the mutex is free and takes
    it. *)
Definition Lock (k : proc vars) : proc vars :=
  Atomic (fun h => negb (errMux h))
    (fun h => {| res := res h; errMux := true; errs := errs h |})
    (fun _ => k).

(** The read of [errs], then [k] of the value read. *)
Definition load_errs (k : option error → proc vars) : proc vars :=
  Atomic (fun _ => true) (fun h => h) (fun h => k (errs h)).

(** [errs = v], then [k]. *)
Definition store_errs (v : option error) (k : proc vars) : proc vars :=
  Atomic (fun _ => true)
    (fun h => {| res := res h; errMux := errMux h; errs := v |})
    (fun _ => k).

(** [errMux.Unlock()], then [k]. *)
Definition Unlock (k : proc vars) : proc vars :=
  Atomic (fun _ => true)
    (fun h => {| res := res h; errMux := false; errs := errs h |})
    (fun _ => k).

(** The function literal of [Mapper.MapErr]:
    [res[i], err = f(t)], and when [err != nil], under the mutex,
    [errs = errors.Append(errs, err)], which reads [errs] and then
    stores the combined error. *)
Definition MapErr_func (f : T → result (R * option error)) (i : nat)
    (t : T) : proc vars :=
  call (f t) (fun '(r, err) =>
  store_res i r (
  match err with
  | Some _ =>
      Lock (
      load_errs (fun errs0 =>
      store_errs (Append errs0 err) (
      Unlock
      Ret)))
  | None => Ret
  end)).

(** [Mapper.MapErr]. *)
Definition Mapper_MapErr (m : Mapper) (sched : list tick)
    (input : list T) (f : T → result (R * option error))
  : result (list R * option error) :=
  let h := {| res := make (length input); errMux := false;
              errs := None |} in
  match ForEachIdx (Iterator_ m) sched input (MapErr_func f) h with
  | Returns h' => Returns (res h', errs h')
  | Panics v => Panics v
  | Blocked => Blocked
  end.

(** [MapErr]: the zero [Mapper]. *)
Definition MapErr (sched : list tick) (input : list T)
    (f : T → result (R * option error))
  : result (list R * option error) :=
  Mapper_MapErr {| Iterator_ := {| MaxGoroutines := 0 |} |} sched input f.

End Mapper.
Arguments vars R {_}.

End iter.


(** ** The units of work of the tests

    The tests of the task group spawn three kinds of units on a shared
    counter: [count.Add(1)], the empty [func() {}], and [panic(v)]. The
    counter is a natural number: an [atomic.Int64] that is incremented
    once per goroutine stays below its bound. *)
Inductive work : Type :=
| add1
| noop
| panics (v : payload).

Definition body (w : work) : proc nat :=
  match w with
  | add1 => Atomic (fun _ => true) S (fun _ => Ret)
  | noop => Ret
  | panics v => Panic v
  end.

(** The number of units of a list that increment the counter. *)
Definition adds (ws : list work) : nat :=
  sum_list ((fun w => match w with add1 => 1 | _ => 0 end) <$> ws).

(** The caller spawns [ws] in order on a fresh task group, counter at
    zero, and joins; [wave sched ws] is the state the schedule leads to. *)
Definition wave (sched : list tick) (ws : list work) : machine nat :=
  exec sched (start 0 (body <$> ws)).

(** ** Calls under every schedule

    A blocking call, as a function of the schedule, settles on [P] when,
    whatever the schedule so far, some continuation of it ends the call
    (the call is never blocked for good), and the outcome of the call,
    once it has one, satisfies [P]. *)
Definition settles {A : Type} (run : list tick → result A)
    (P : result A → Prop) : Prop :=
  ∀ sched,
    (∃ more, run (sched ++ more) ≠ Blocked) ∧
    (run sched = Blocked ∨ P (run sched)).

(** ** Annotations used by the proofs *)

(** The task group's count is the number of goroutines that have not
    exited. *)
Definition active {M : Type} (g : goroutine M) : nat :=
  match g with
  | Running _ => 1
  | Exited => 0
  end.

Definition accounted {M : Type} (m : machine M) : Prop :=
  outstanding (wg m) = sum_list (active <$> goroutines m).

(** How far a goroutine has come in the function it runs. The stages
    between [Fresh] and [Returned] are those of the function literal of
    [MapErr]: [Stored] after the store into [res[i]], [Locked] with the
    mutex held, [Read h] after reading [errs] in memory [h], [Appended]
    after the store into [errs]. *)
Inductive stage (M : Type) : Type :=
| Fresh
| Stored
| Locked
| Read (h : M)
| Appended
| Returned
| Gone.
Arguments Fresh {M}.
Arguments Stored {M}.
Arguments Locked {M}.
Arguments Read {M} h.
Arguments Appended {M}.
Arguments Returned {M}.
Arguments Gone {M}.

(** The actions a goroutine at a stage has left, at most. *)
Definition left_to_do {M : Type} (st : stage M) : nat :=
  match st with
  | Fresh => 6
  | Stored => 5
  | Locked => 4
  | Read _ => 3
  | Appended => 2
  | Returned => 1
  | Gone => 0
  end.

(** A goroutine at one of these stages holds the mutex. *)
Definition holds {M : Type} (st : stage M) : nat :=
  match st with
  | Locked | Read _ | Appended => 1
  | _ => 0
  end.

Section Stages.
Context {M E : Type}.
Variable elems : list E.
Variable unit_of : nat → E → proc M.
Variable draw : nat → E → stage M → goroutine M.

(** The goroutine of the [k]-th element at a stage. *)
Definition render (k : nat) (st : stage M) : goroutine M :=
  match elems !! k with
  | Some e => draw k e st
  | None => Exited
  end.

(** The state of a run that spawns one unit per element, annotated with
    the stage of each goroutine started so far. *)
Definition shape (stages : list (stage M)) (m : machine M) : Prop :=
  goroutines m = imap render stages ∧
  to_spawn m = drop (length stages) (imap unit_of elems) ∧
  length stages ≤ length elems ∧
  accounted m.

(** What is left of the run: the actions of the goroutines, and for each
    unit still to spawn the spawn and its actions. *)
Definition fuel (stages : list (stage M)) (m : machine M) : nat :=
  7 * length (to_spawn m) + sum_list (left_to_do <$> stages).

End Stages.

(** *** Annotations of a wave of test units *)

(** The goroutine of a test unit at a stage: [count.Add(1)] is one
    action, after which the function has returned. *)
Definition draw_work (k : nat) (w : work) (st : stage nat) : goroutine nat :=
  match st with
  | Fresh => Running (body w)
  | Gone => Exited
  | _ => Running Ret
  end.

(** What the [k]-th unit has added to the counter once at a stage. *)
Definition credit (ws : list work) (k : nat) (st : stage nat) : nat :=
  match ws !! k, st with
  | Some add1, Fresh => 0
  | Some add1, _ => 1
  | _, _ => 0
  end.

Definition wave_inv (ws : list work) (stages : list (stage nat))
    (m : machine nat) : Prop :=
  shape ws (fun _ => body) draw_work stages m ∧
  mem m = sum_list (imap (credit ws) stages) ∧
  (∀ c, slot (wg m) = Some c → panics (Value c) ∈ ws) ∧
  (∀ k v, ws !! k = Some (panics v) → stages !! k = Some Gone →
     slot (wg m) ≠ None) ∧
  (∀ k st, stages !! k = Some st →
     st = Fresh ∨ st = Gone ∨ (st = Returned ∧ ws !! k = Some add1)).

(** *** Annotations of a parallel map

    The transform returns on every element: it is [returning g]. *)
Section MapAnnotations.
Context {T R : Type} `{!Inhabited R}.

(** The goroutine of the element at index [k] of [Map] at a stage:
    the store into [res[k]] is its one action. *)
Definition draw_Map (g : T → R) (k : nat) (t : T) (st : stage (list R))
  : goroutine (list R) :=
  match st with
  | Fresh => Running (iter.Map_func (iter.returning g) k t)
  | Gone => Exited
  | _ => Running Ret
  end.

Definition Map_inv (g : T → R) (input : list T)
    (stages : list (stage (list R))) (m : machine (list R)) : Prop :=
  shape input (iter.Map_func (iter.returning g)) (draw_Map g) stages m ∧
  length (mem m) = length input ∧
  slot (wg m) = None ∧
  (∀ k st t, stages !! k = Some st → st ≠ Fresh → input !! k = Some t →
     mem m !! k = Some (g t)).

End MapAnnotations.

(** *** Annotations of a parallel map with errors

    The transform returns on every element: it is [returning g]. *)
Section MapErrAnnotations.
Context {T R : Type} `{!Inhabited R} `{!errors.Lib}.

(** The goroutine of the element at index [k] of [MapErr] at a stage. *)
Definition draw_MapErr (g : T → R * option errors.error) (k : nat) (t : T)
    (st : stage (iter.vars R)) : goroutine (iter.vars R) :=
  let err := (g t).2 in
  match st with
  | Fresh => Running (iter.MapErr_func (iter.returning g) k t)
  | Stored =>
      Running
        match err with
        | Some _ =>
            iter.Lock (
            iter.load_errs (fun errs0 =>
            iter.store_errs (errors.Append errs0 err) (
            iter.Unlock
            Ret)))
        | None => Ret
        end
  | Locked =>
      Running (
        iter.load_errs (fun errs0 =>
        iter.store_errs (errors.Append errs0 err) (
        iter.Unlock
        Ret)))
  | Read h =>
      Running (
        iter.store_errs (errors.Append (iter.errs h) err) (
        iter.Unlock
        Ret))
  | Appended => Running (iter.Unlock Ret)
  | Returned => Running Ret
  | Gone => Exited
  end.

(** At these stages the error of the element, if it reported one, is part
    of [errs]. *)
Definition appended {M : Type} (st : stage M) : bool :=
  match st with
  | Appended | Returned | Gone => true
  | _ => false
  end.

Definition MapErr_inv (g : T → R * option errors.error) (input : list T)
    (stages : list (stage (iter.vars R))) (m : machine (iter.vars R))
  : Prop :=
  shape input (iter.MapErr_func (iter.returning g)) (draw_MapErr g)
    stages m ∧
  length (iter.res (mem m)) = length input ∧
  slot (wg m) = None ∧
  (∀ k st t, stages !! k = Some st → st ≠ Fresh → input !! k = Some t →
     iter.res (mem m) !! k = Some (g t).1) ∧
  sum_list (holds <$> stages) = Nat.b2n (iter.errMux (mem m)) ∧
  (∀ k st t, stages !! k = Some st → holds st = 1 →
     input !! k = Some t → is_Some (g t).2) ∧
  (∀ k h, stages !! k = Some (Read h) →
     iter.errs h = iter.errs (mem m)) ∧
  (∀ k st t e, stages !! k = Some st → appended st = true →
     input !! k = Some t → (g t).2 = Some e →
     ∃ c, iter.errs (mem m) = Some c ∧
          Contains (errors.Error c) (errors.Error e) = true) ∧
  ((∀ t, t ∈ input → (g t).2 = None) → iter.errs (mem m) = None).

End MapErrAnnotations.

(** ** Counting reported errors and a test transform *)

(** The number of elements whose transform reports a non-nil error. *)
Definition failures {T R : Type} `{!errors.Lib}
    (g : T → R * option errors.error) (input : list T) : nat :=
  length (filter (fun t => is_Some (g t).2) input).

(** The transform of the scenario of the spec: [x] is mapped to [x * 2],
    with an error for [x == 2]. *)
Definition double_but_two (x : nat) : nat * option errors.joined :=
  (x * 2, if Nat.eqb x 2 then Some (errors.New "two is bad") else None).

(** ** Annotations for transforms that may panic *)
Section MapPanicAnnotations.
Context {T R : Type} `{!Inhabited R}.

(** The goroutine of the element at index [k] of [Map] at a stage, for a
    transform [f] that returns or panics. *)
Definition draw_Map_any (f : T → result R) (k : nat) (t : T)
    (st : stage (list R)) : goroutine (list R) :=
  match st with
  | Fresh => Running (iter.Map_func f k t)
  | Gone => Exited
  | _ => Running Ret
  end.

Definition Map_any_inv (f : T → result R) (input : list T)
    (stages : list (stage (list R))) (m : machine (list R)) : Prop :=
  shape input (iter.Map_func f) (draw_Map_any f) stages m ∧
  length (mem m) = length input ∧
  (∀ k st t r, stages !! k = Some st → st ≠ Fresh →
     input !! k = Some t → f t = Returns r → mem m !! k = Some r) ∧
  (∀ c, slot (wg m) = Some c →
     ∃ t, t ∈ input ∧ f t = Panics (Value c)) ∧
  (∀ k t v, input !! k = Some t → f t = Panics v →
     stages !! k = Some Gone → slot (wg m) ≠ None) ∧
  (∀ k st t, stages !! k = Some st → input !! k = Some t →
     st = Fresh ∨ st = Gone ∨ (st = Returned ∧ ∃ r, f t = Returns r)).

End MapPanicAnnotations.

Section MapErrPanicAnnotations.
Context {T R : Type} `{!Inhabited R} `{!errors.Lib}.

(** The errors the transform reports, in the order of the elements. *)
Definition reported (f : T → result (R * option errors.error))
    (input : list T) : list errors.error :=
  omap (fun t => match f t with
                 | Returns (_, Some e) => Some e
                 | _ => None
                 end) input.

(** [errs = errors.Append(errs, err)] for each error of a list in turn,
    starting from the nil [errs]. *)
Definition combine (order : list errors.error) : option errors.error :=
  fold_left (fun errs err => errors.Append errs (Some err)) order None.

(** The goroutine of the element at index [k] of [MapErr] at a stage, for
    a transform [f] that returns or panics. *)
Definition draw_MapErr_any (f : T → result (R * option errors.error))
    (k : nat) (t : T) (st : stage (iter.vars R)) : goroutine (iter.vars R) :=
  match st, f t with
  | Fresh, _ => Running (iter.MapErr_func f k t)
  | Gone, _ => Exited
  | Stored, Returns (_, Some e) =>
      Running (
        iter.Lock (
        iter.load_errs (fun errs0 =>
        iter.store_errs (errors.Append errs0 (Some e)) (
        iter.Unlock
        Ret))))
  | Locked, Returns (_, err) =>
      Running (
        iter.load_errs (fun errs0 =>
        iter.store_errs (errors.Append errs0 err) (
        iter.Unlock
        Ret)))
  | Read h, Returns (_, err) =>
      Running (
        iter.store_errs (errors.Append (iter.errs h) err) (
        iter.Unlock
        Ret))
  | Appended, Returns _ => Running (iter.Unlock Ret)
  | _, _ => Running Ret
  end.

(** The error the element at index [k] has added to [errs] once its
    goroutine is at a stage. *)
Definition appended_by (f : T → result (R * option errors.error))
    (input : list T) (k : nat) (st : stage (iter.vars R))
  : list errors.error :=
  match input !! k with
  | Some t =>
      match f t with
      | Returns (_, Some e) => if appended st then [e] else []
      | _ => []
      end
  | None => []
  end.

(** The annotation of a run: the stage of each goroutine, and the errors
    appended so far in the order of the appends. *)
Definition MapErr_any_inv (f : T → result (R * option errors.error))
    (input : list T)
    (note : list (stage (iter.vars R)) * list errors.error)
    (m : machine (iter.vars R)) : Prop :=
  shape input (iter.MapErr_func f) (draw_MapErr_any f) note.1 m ∧
  length (iter.res (mem m)) = length input ∧
  (∀ k st t r err, note.1 !! k = Some st → st ≠ Fresh →
     input !! k = Some t → f t = Returns (r, err) →
     iter.res (mem m) !! k = Some r) ∧
  sum_list (holds <$> note.1) = Nat.b2n (iter.errMux (mem m)) ∧
  (∀ k st t, note.1 !! k = Some st → input !! k = Some t →
     match f t with
     | Returns (_, err) => holds st = 1 → is_Some err
     | _ => st = Fresh ∨ st = Gone
     end) ∧
  (∀ k h, note.1 !! k = Some (Read h) →
     iter.errs h = iter.errs (mem m)) ∧
  iter.errs (mem m) = combine note.2 ∧
  note.2 ≡ₚ mjoin (imap (appended_by f input) note.1) ∧
  (∀ c, slot (wg m) = Some c →
     ∃ t, t ∈ input ∧ f t = Panics (Value c)) ∧
  (∀ k t v, input !! k = Some t → f t = Panics v →
     note.1 !! k = Some Gone → slot (wg m) ≠ None).

End MapErrPanicAnnotations.

(** * Facts *)

(** ** Text *)

Lemma append_nil (s : string) : "" +:+ s = s.
Proof. reflexivity. Qed.

Lemma append_cons (a : Ascii.ascii) (s t : string) :
  String a s +:+ t = String a (s +:+ t).
Proof. reflexivity. Qed.

Lemma append_nil_r (s : string) : s +:+ "" = s.
Proof.
  induction s as [|a s IH]; [done|]. by rewrite append_cons, IH.
Qed.

Lemma append_assoc (a b c : string) : (a +:+ b) +:+ c = a +:+ (b +:+ c).
Proof.
  induction a as [|x a IH]; [done|]. by rewrite !append_cons, IH.
Qed.

Lemma prefix_append (x post : string) : String.prefix x (x +:+ post) = true.
Proof.
  induction x as [|a x IH].
  - rewrite append_nil. by destruct post.
  - rewrite append_cons. simpl.
    destruct (Ascii.ascii_dec a a); [apply IH | done].
Qed.

Lemma prefix_split (x s : string) :
  String.prefix x s = true → ∃ post, s = x +:+ post.
Proof.
  revert s. induction x as [|a x IH]; intros s H.
  - by exists s.
  - destruct s as [|b s]; simpl in H; [done|].
    destruct (Ascii.ascii_dec a b) as [->|]; [|done].
    destruct (IH _ H) as [post ->]. by exists post.
Qed.

Lemma Contains_prefix (s x : string) :
  String.prefix x s = true → Contains s x = true.
Proof. destruct s; simpl; by intros ->. Qed.

Lemma Contains_here (x post : string) : Contains (x +:+ post) x = true.
Proof. apply Contains_prefix, prefix_append. Qed.

Lemma Contains_cons (a : Ascii.ascii) (s x : string) :
  Contains (String a s) x = String.prefix x (String a s) || Contains s x.
Proof. reflexivity. Qed.

Lemma Contains_split (s x : string) :
  Contains s x = true ↔ ∃ pre post, s = pre +:+ x +:+ post.
Proof.
  split.
  - induction s as [|a s IH]; intros H.
    + destruct x; [by exists "", "" | done].
    + rewrite Contains_cons in H. apply orb_true_iff in H as [H|H].
      * destruct (prefix_split _ _ H) as [post Hs].
        exists "", post. by rewrite Hs.
      * destruct (IH H) as (pre & post & ->).
        by exists (String a pre), post.
  - intros (pre & post & ->).
    induction pre as [|a pre IH].
    + rewrite append_nil. apply Contains_here.
    + rewrite append_cons, Contains_cons, IH. apply orb_true_r.
Qed.

Lemma Contains_refl (s : string) : Contains s s = true.
Proof.
  apply Contains_split. exists "", "". by rewrite append_nil, append_nil_r.
Qed.

Lemma Contains_append_l (s t x : string) :
  Contains s x = true → Contains (s +:+ t) x = true.
Proof.
  rewrite !Contains_split. intros (pre & post & ->).
  exists pre, (post +:+ t). by rewrite !append_assoc.
Qed.

Lemma Contains_append_r (s t x : string) :
  Contains t x = true → Contains (s +:+ t) x = true.
Proof.
  rewrite !Contains_split. intros (pre & post & ->).
  exists (s +:+ pre), post. by rewrite !append_assoc.
Qed.

Lemma Contains_trans (s t x : string) :
  Contains s t = true → Contains t x = true → Contains s x = true.
Proof.
  rewrite !Contains_split. intros (p1 & q1 & ->) (p2 & q2 & ->).
  exists (p1 +:+ p2), (q2 +:+ q1). by rewrite !append_assoc.
Qed.

(** ** Sums over lists updated in place *)

Lemma sum_list_insert {A : Type} (f : A → nat) (l : list A) (k : nat)
    (x y : A) :
  l !! k = Some x →
  sum_list (f <$> <[k := y]> l) + f x = sum_list (f <$> l) + f y.
Proof.
  revert k. induction l as [|a l IH]; intros [|k] H; simplify_eq/=.
  - lia.
  - specialize (IH _ H). lia.
Qed.

Lemma sum_list_snoc (l : list nat) (n : nat) :
  sum_list (l ++ [n]) = sum_list l + n.
Proof. induction l as [|a l IH]; simpl; lia. Qed.

Lemma sum_list_lookup_le {A : Type} (f : A → nat) (l : list A) (k : nat)
    (x : A) :
  l !! k = Some x → f x ≤ sum_list (f <$> l).
Proof.
  revert k. induction l as [|a l IH]; intros [|k] H; simplify_eq/=.
  - lia.
  - specialize (IH _ H). lia.
Qed.

Lemma sum_list_lookup_le2 {A : Type} (f : A → nat) (l : list A)
    (j k : nat) (x y : A) :
  j ≠ k → l !! j = Some x → l !! k = Some y →
  f x + f y ≤ sum_list (f <$> l).
Proof.
  revert j k. induction l as [|a l IH]; intros [|j] [|k] Hne Hj Hk;
    simplify_eq/=.
  - pose proof (sum_list_lookup_le f l k y Hk). lia.
  - pose proof (sum_list_lookup_le f l j x Hj). lia.
  - assert (j ≠ k) as Hne' by lia. specialize (IH _ _ Hne' Hj Hk). lia.
Qed.

Lemma sum_list_positive {A : Type} (f : A → nat) (l : list A) :
  0 < sum_list (f <$> l) → ∃ k x, l !! k = Some x ∧ 0 < f x.
Proof.
  induction l as [|a l IH]; csimpl; intros H; [lia|].
  destruct (f a) eqn:E.
  - destruct IH as (k & x & Hk & Hx); [lia|]. by exists (S k), x.
  - exists 0, a. split; [done | lia].
Qed.

(** ** Runs *)
Section RuntimeFacts.
Context {M : Type}.
Implicit Types (m : machine M) (t : tick) (sched : list tick).

Lemma exec_app sched more m :
  exec (sched ++ more) m = exec more (exec sched m).
Proof. apply fold_left_app. Qed.

Lemma exec_invariant (I : machine M → Prop) :
  (∀ t m, I m → I (step t m)) →
  ∀ sched m, I m → I (exec sched m).
Proof.
  intros Hstep sched. induction sched as [|t sched IH]; intros m Hm.
  - done.
  - apply IH, Hstep, Hm.
Qed.

(** The slot keeps the first failure it is given. *)
Lemma step_slot_kept t m c :
  slot (wg m) = Some c → slot (wg (step t m)) = Some c.
Proof.
  intros Hc. destruct t as [|k]; simpl.
  - by destruct (to_spawn m).
  - destruct (goroutines m !! k) as [[[|v|en eff next]|]|]; simpl;
      rewrite ?Hc; try done.
    by destruct (en (mem m)).
Qed.

Lemma exec_slot_kept sched m c :
  slot (wg m) = Some c → slot (wg (exec sched m)) = Some c.
Proof.
  revert m. induction sched as [|t sched IH]; intros m Hc; [done|].
  apply IH, step_slot_kept, Hc.
Qed.

(** The count of outstanding units is the number of live goroutines. *)
Lemma start_accounted (h : M) (units : list (proc M)) :
  accounted (start h units).
Proof. reflexivity. Qed.

Lemma step_accounted t m : accounted m → accounted (step t m).
Proof.
  unfold accounted. intros Hm. destruct t as [|k]; simpl.
  - destruct (to_spawn m); simpl; [done|].
    rewrite fmap_app. csimpl. rewrite sum_list_snoc, Hm. lia.
  - destruct (goroutines m !! k) as [[[|v|en eff next]|]|] eqn:Hk;
      simpl; try done.
    + pose proof (sum_list_insert active _ _ _ Exited Hk) as E.
      simpl in E. lia.
    + pose proof (sum_list_insert active _ _ _ Exited Hk) as E.
      simpl in E. lia.
    + destruct (en (mem m)); simpl; [|done].
      pose proof (sum_list_insert active _ _ _
                    (Running (next (mem m))) Hk) as E.
      simpl in E. lia.
Qed.

Lemma accounted_all_exited m :
  accounted m → outstanding (wg m) = 0 →
  ∀ k g, goroutines m !! k = Some g → g = Exited.
Proof.
  unfold accounted. intros Hm H0 k g Hk.
  pose proof (sum_list_lookup_le active _ _ _ Hk) as Hle.
  destruct g; simpl in Hle; [lia | done].
Qed.

Lemma drained_true m :
  drained m = true ↔ to_spawn m = [] ∧ outstanding (wg m) = 0.
Proof.
  unfold drained. destruct (to_spawn m).
  - rewrite Nat.eqb_eq. split; [done | by intros [_ ?]].
  - split; [done | by intros [? _]].
Qed.

(** A run in which some tick always uses up fuel can be continued until
    the task group is drained. *)
Lemma drains {G : Type} (I : G → machine M → Prop) (fuel : G → machine M → nat) :
  (∀ g m, I g m → drained m = false →
     ∃ t g', I g' (step t m) ∧ fuel g' (step t m) < fuel g m) →
  ∀ g m, I g m → ∃ sched, drained (exec sched m) = true.
Proof.
  intros Hmove g m. remember (fuel g m) as n eqn:En.
  revert g m En. induction n as [n IH] using lt_wf_ind. intros g m -> Hm.
  destruct (drained m) eqn:Hd.
  - by exists [].
  - destruct (Hmove g m Hm Hd) as (t & g' & Hm' & Hlt).
    destruct (IH _ Hlt g' (step t m) eq_refl Hm') as [sched Hs].
    by exists (t :: sched).
Qed.

End RuntimeFacts.

(** ** Runs annotated with stages *)

Lemma imap_insert {A B : Type} (f : nat → A → B) (l : list A) (k : nat)
    (x : A) :
  imap f (<[k := x]> l) = <[k := f k x]> (imap f l).
Proof.
  apply list_eq. intros i. rewrite list_lookup_imap.
  destruct (decide (k < length l)) as [Hlt|Hge].
  - destruct (decide (i = k)) as [->|Hne].
    + rewrite !list_lookup_insert_eq; [done | by rewrite length_imap | done].
    + by rewrite !list_lookup_insert_ne, list_lookup_imap.
  - rewrite !list_insert_ge; [by rewrite list_lookup_imap | |];
      rewrite ?length_imap; lia.
Qed.

Section StagesFacts.
Context {M E : Type}.
Variable elems : list E.
Variable unit_of : nat → E → proc M.
Variable draw : nat → E → stage M → goroutine M.
Hypothesis draw_Fresh : ∀ k e, draw k e Fresh = Running (unit_of k e).

Lemma shape_start (h : M) :
  shape elems unit_of draw [] (start h (imap unit_of elems)).
Proof.
  unfold shape. simpl. split_and!; [done | done | lia | done].
Qed.

Lemma shape_lookup stages m k st :
  shape elems unit_of draw stages m → stages !! k = Some st →
  ∃ e, elems !! k = Some e ∧ goroutines m !! k = Some (draw k e st).
Proof.
  intros (Hg & _ & Hlen & _) Hk.
  destruct (elems !! k) as [e|] eqn:He.
  - exists e. split; [done|].
    rewrite Hg, list_lookup_imap, Hk. simpl. unfold render. by rewrite He.
  - apply lookup_lt_Some in Hk. apply lookup_ge_None in He. lia.
Qed.

Lemma shape_lookup_None stages m k :
  shape elems unit_of draw stages m → stages !! k = None →
  goroutines m !! k = None.
Proof.
  intros (Hg & _) Hk. by rewrite Hg, list_lookup_imap, Hk.
Qed.

Lemma shape_spawn stages m u rest :
  shape elems unit_of draw stages m → to_spawn m = u :: rest →
  shape elems unit_of draw (stages ++ [Fresh]) (step caller m) ∧
  fuel (stages ++ [Fresh]) (step caller m) < fuel stages m ∧
  mem (step caller m) = mem m ∧ wg (step caller m) = 
    {| outstanding := S (outstanding (wg m)); slot := slot (wg m) |}.
Proof.
  intros Hs Hu. pose proof (step_accounted caller m) as Hacc.
  destruct Hs as (Hg & Hsp & Hlen & Ha). specialize (Hacc Ha).
  revert Hacc. unfold fuel. simpl. rewrite Hu. simpl. intros Hacc.
  assert (imap unit_of elems !! length stages = Some u) as Hj.
  { pose proof (lookup_drop (imap unit_of elems) (length stages) 0) as Hd.
    rewrite <- Hsp, Hu, Nat.add_0_r in Hd. done. }
  apply list_lookup_imap_Some in Hj as (e & He & ->).
  repeat split; try done.
  - rewrite Hg, imap_app. simpl. unfold render.
    by rewrite Nat.add_0_r, He, draw_Fresh.
  - rewrite length_app. simpl. rewrite Nat.add_1_r.
    assert (imap unit_of elems !! length stages = Some (unit_of (length stages) e))
      as Hj by (by rewrite list_lookup_imap, He).
    apply drop_S in Hj. rewrite <- Hsp, Hu in Hj. by simplify_eq.
  - rewrite length_app. simpl. apply lookup_lt_Some in He. lia.
  - rewrite fmap_app. csimpl. rewrite sum_list_snoc. simpl. lia.
Qed.

Lemma shape_update stages m m' k st st' e :
  shape elems unit_of draw stages m →
  stages !! k = Some st → elems !! k = Some e →
  goroutines m' = <[k := draw k e st']> (goroutines m) →
  to_spawn m' = to_spawn m → accounted m' →
  shape elems unit_of draw (<[k := st']> stages) m'.
Proof.
  intros (Hg & Hsp & Hlen & _) Hk He Hg' Hsp' Ha'.
  repeat split; try done.
  - rewrite Hg', Hg, imap_insert. unfold render. by rewrite He.
  - by rewrite Hsp', length_insert.
  - by rewrite length_insert.
Qed.

Lemma shape_drained stages m :
  shape elems unit_of draw stages m → drained m = true →
  length stages = length elems ∧
  ∀ k st, stages !! k = Some st →
    ∃ e, elems !! k = Some e ∧ draw k e st = Exited.
Proof.
  intros Hs Hd. apply drained_true in Hd as [Hnil H0]. split.
  - destruct Hs as (_ & Hsp & Hlen & _). rewrite Hnil in Hsp.
    symmetry in Hsp. apply drop_nil_inv in Hsp.
    rewrite length_imap in Hsp. lia.
  - intros k st Hk. destruct (shape_lookup _ _ _ _ Hs Hk) as (e & He & Hgk).
    exists e. split; [done|]. destruct Hs as (_ & _ & _ & Ha).
    apply (accounted_all_exited _ Ha H0 _ _ Hgk).
Qed.

Lemma fuel_update stages (m m' : machine M) k st st' :
  stages !! k = Some st → to_spawn m' = to_spawn m →
  left_to_do st' < left_to_do st →
  fuel (<[k := st']> stages) m' < fuel stages m.
Proof.
  intros Hk Hsp Hlt. unfold fuel. rewrite Hsp.
  pose proof (sum_list_insert left_to_do _ _ _ st' Hk). lia.
Qed.

End StagesFacts.

Lemma shape_live {M E : Type} (elems : list E) (unit_of : nat → E → proc M)
    (draw : nat → E → stage M → goroutine M) stages m :
  (∀ k e, draw k e Gone = Exited) →
  shape elems unit_of draw stages m → drained m = false →
  to_spawn m = [] → ∃ k st, stages !! k = Some st ∧ st ≠ Gone.
Proof.
  intros Hgone Hs Hd Hnil. unfold drained in Hd. rewrite Hnil in Hd.
  apply Nat.eqb_neq in Hd. destruct Hs as (Hg & _ & _ & Ha).
  red in Ha. destruct (sum_list_positive active (goroutines m))
    as (k & g & Hk & Hpos); [lia|].
  rewrite Hg, list_lookup_imap in Hk.
  destruct (stages !! k) as [st|] eqn:Hst; [|done]. simpl in Hk.
  exists k, st. split; [done|]. intros ->. simplify_eq.
  unfold render in Hpos. destruct (elems !! k); [|simpl in Hpos; lia].
  rewrite Hgone in Hpos. simpl in Hpos. lia.
Qed.

(** ** Sums over indexed lists *)

Lemma sum_list_imap_insert {A : Type} (f : nat → A → nat) (l : list A)
    (k : nat) (x y : A) :
  l !! k = Some x →
  sum_list (imap f (<[k := y]> l)) + f k x = sum_list (imap f l) + f k y.
Proof.
  revert f k. induction l as [|a l IH]; intros f [|k] H; simplify_eq/=.
  - lia.
  - specialize (IH (f ∘ S) _ H). simpl in IH. lia.
Qed.

Lemma sum_list_imap_snoc {A : Type} (f : nat → A → nat) (l : list A)
    (x : A) :
  sum_list (imap f (l ++ [x])) = sum_list (imap f l) + f (length l) x.
Proof.
  rewrite imap_app, Nat.add_comm. simpl.
  rewrite sum_list_snoc, Nat.add_0_r. lia.
Qed.

(** A lookup in a list updated at [k]: the updated position, or another. *)
Ltac lookup_at k H :=
  match type of H with
  | <[k := _]> ?l !! ?j = _ =>
      destruct (decide (j = k)) as [->|?];
      [ rewrite list_lookup_insert_eq in H by (eapply lookup_lt_Some; eauto);
        simplify_eq
      | rewrite list_lookup_insert_ne in H by done ]
  end.

Section WaveFacts.
Variable ws : list work.

Lemma wave_start : wave_inv ws [] (start 0 (body <$> ws)).
Proof.
  split_and!; try done.
  rewrite <- (imap_const body ws). by apply shape_start.
Qed.

Lemma credit_Fresh k : credit ws k Fresh = 0.
Proof. unfold credit. by destruct (ws !! k) as [[]|]. Qed.

Lemma credit_lookup k w st :
  ws !! k = Some w →
  credit ws k st = match w, st with
                   | add1, Fresh => 0
                   | add1, _ => 1
                   | _, _ => 0
                   end.
Proof. unfold credit. by intros ->. Qed.

Lemma wave_caller stages m :
  wave_inv ws stages m →
  ∃ stages', wave_inv ws stages' (step caller m) ∧
    (to_spawn m ≠ [] → fuel stages' (step caller m) < fuel stages m).
Proof.
  intros (Hs & Hmem & Hsound & Hcompl & Hvalid).
  destruct (to_spawn m) as [|u rest] eqn:Hu.
  - exists stages. split; [|done]. simpl. rewrite Hu. done.
  - destruct (shape_spawn ws (fun _ => body) draw_work (fun _ _ => eq_refl)
                _ _ _ _ Hs Hu) as (Hs' & Hfuel & Hmem' & Hwg').
    exists (stages ++ [Fresh]). split; [|done].
    split_and!; try done.
    + rewrite Hmem', sum_list_imap_snoc, credit_Fresh. lia.
    + rewrite Hwg'. apply Hsound.
    + rewrite Hwg'. simpl. intros k v Hk Hst. apply (Hcompl k v Hk).
      apply lookup_app_Some in Hst as [Hst|[_ Hst]]; [done|].
      apply list_lookup_singleton_Some in Hst as [_ ?]. done.
    + intros k st Hst.
      apply lookup_app_Some in Hst as [Hst|[_ Hst]]; [by apply Hvalid|].
      apply list_lookup_singleton_Some in Hst as [_ <-]. by left.
Qed.

Lemma wave_worker k stages m :
  wave_inv ws stages m →
  ∃ stages', wave_inv ws stages' (step (worker k) m) ∧
    (∀ st, stages !! k = Some st → st ≠ Gone →
       fuel stages' (step (worker k) m) < fuel stages m).
Proof.
  intros (Hs & Hmem & Hsound & Hcompl & Hvalid).
  pose proof (step_accounted (worker k) m (proj2 (proj2 (proj2 Hs)))) as Ha.
  destruct (stages !! k) as [st|] eqn:Hst.
  2:{ exists stages. split; [|done]. simpl in *.
      rewrite (shape_lookup_None _ _ _ _ _ _ Hs Hst). done. }
  destruct (shape_lookup _ _ _ _ _ _ _ Hs Hst) as (w & Hw & Hgk).
  revert Ha. simpl. rewrite Hgk.
  destruct (Hvalid k st Hst) as [-> | [-> | [-> Hadd]]]; simpl.
  - destruct w; simpl; intros Ha.
    + (* count.Add(1) *)
      exists (<[k := Returned]> stages). split.
      * split_and!; simpl.
        -- by eapply shape_update with (m := m).
        -- pose proof (sum_list_imap_insert (credit ws) _ _ _ Returned Hst) as E.
           rewrite !(credit_lookup _ _ _ Hw) in E. simpl in E. lia.
        -- done.
        -- intros k0 v Hk0 H0. lookup_at k H0. eauto.
        -- intros k0 st0 H0. lookup_at k H0; eauto.
      * intros st ? _. simplify_eq. eapply fuel_update; [done | done | simpl; lia].
    + (* func() {} *)
      exists (<[k := Gone]> stages). split.
      * split_and!; simpl.
        -- by eapply shape_update with (m := m).
        -- pose proof (sum_list_imap_insert (credit ws) _ _ _ Gone Hst) as E.
           rewrite !(credit_lookup _ _ _ Hw) in E. simpl in E. lia.
        -- done.
        -- intros k0 v Hk0 H0. lookup_at k H0. eauto.
        -- intros k0 st0 H0. lookup_at k H0; eauto.
      * intros st ? _. simplify_eq. eapply fuel_update; [done | done | simpl; lia].
    + (* panic(v) *)
      exists (<[k := Gone]> stages). split.
      * split_and!; simpl.
        -- by eapply shape_update with (m := m).
        -- pose proof (sum_list_imap_insert (credit ws) _ _ _ Gone Hst) as E.
           rewrite !(credit_lookup _ _ _ Hw) in E. simpl in E. lia.
        -- intros c. destruct (slot (wg m)) as [c'|] eqn:Hc; simpl.
           ++ intros ?. simplify_eq. by apply Hsound.
           ++ intros ?. simplify_eq. simpl.
              apply list_elem_of_lookup. by exists k.
        -- intros k0 v0 Hk0 H0. by destruct (slot (wg m)).
        -- intros k0 st0 H0. lookup_at k H0; eauto.
      * intros st ? _. simplify_eq. eapply fuel_update; [done | done | simpl; lia].
  - intros _. exists stages. split; [done|]. intros st ? ?. by simplify_eq.
  - intros Ha. exists (<[k := Gone]> stages). simplify_eq. split.
    + split_and!; simpl.
      * by eapply shape_update with (m := m).
      * pose proof (sum_list_imap_insert (credit ws) _ _ _ Gone Hst) as E.
        rewrite !(credit_lookup _ _ _ Hw) in E. simpl in E. lia.
      * done.
      * intros k0 v Hk0 H0. lookup_at k H0. eauto.
      * intros k0 st0 H0. lookup_at k H0; eauto.
    + intros st ? _. simplify_eq. eapply fuel_update; [done | done | simpl; lia].
Qed.

End WaveFacts.

Section WaveRuns.
Variable ws : list work.

Lemma wave_step t stages m :
  wave_inv ws stages m → ∃ stages', wave_inv ws stages' (step t m).
Proof.
  intros Hm. destruct t as [|k].
  - destruct (wave_caller ws _ _ Hm) as (stages' & Hm' & _). eauto.
  - destruct (wave_worker ws k _ _ Hm) as (stages' & Hm' & _). eauto.
Qed.

Lemma wave_reachable sched :
  ∃ stages, wave_inv ws stages (wave sched ws).
Proof.
  apply (exec_invariant (fun m => ∃ stages, wave_inv ws stages m)).
  - intros t m [stages Hm]. by eapply wave_step.
  - exists []. apply wave_start.
Qed.

Lemma wave_drains stages m :
  wave_inv ws stages m → ∃ more, drained (exec more m) = true.
Proof.
  apply (drains (wave_inv ws) fuel). clear. intros stages m Hm Hd.
  destruct (to_spawn m) as [|u rest] eqn:Hu.
  - destruct (shape_live ws (fun _ => body) draw_work stages m)
      as (k & st & Hst & Hne); [done | apply Hm | done | done |].
    destruct (wave_worker ws k _ _ Hm) as (stages' & Hm' & Hfuel).
    exists (worker k), stages'. eauto.
  - destruct (wave_caller ws _ _ Hm) as (stages' & Hm' & Hfuel).
    exists caller, stages'. split; [done|]. apply Hfuel. by rewrite Hu.
Qed.

Lemma credit_all_gone (stages : list (stage nat)) :
  length stages = length ws →
  (∀ k st, stages !! k = Some st → st = Gone) →
  sum_list (imap (credit ws) stages) = adds ws.
Proof.
  clear. revert stages. induction ws as [|w l IH]; intros [|st stages] Hlen Hall;
    simplify_eq/=; [done|].
  rewrite (Hall 0 st eq_refl). unfold adds. csimpl.
  rewrite (imap_ext _ (credit l) stages) by done.
  rewrite IH; [|done|].
  - unfold adds. by destruct w.
  - intros k st' Hk. by apply (Hall (S k)).
Qed.

Lemma wave_final stages m :
  wave_inv ws stages m → drained m = true →
  mem m = adds ws ∧
  goroutines m = replicate (length ws) Exited ∧
  (∀ c, slot (wg m) = Some c → panics (Value c) ∈ ws) ∧
  (∀ v, panics v ∈ ws → slot (wg m) ≠ None).
Proof.
  intros (Hs & Hmem & Hsound & Hcompl & _) Hd.
  destruct (shape_drained _ _ _ _ _ Hs Hd) as [Hlen Hex].
  assert (∀ k st, stages !! k = Some st → st = Gone) as Hgone.
  { intros k st Hst. destruct (Hex k st Hst) as (w & _ & Hw). by destruct st. }
  split_and!; [| |done|].
  - by rewrite Hmem, credit_all_gone.
  - destruct Hs as (Hg & _). apply list_eq. intros i.
    rewrite Hg, list_lookup_imap.
    destruct (stages !! i) as [st|] eqn:Hst; simpl.
    + rewrite (Hgone _ _ Hst). destruct (Hex i st Hst) as (w & Hw & _).
      unfold render. rewrite Hw. simpl. symmetry.
      apply lookup_replicate_2. by apply lookup_lt_Some in Hw.
    + symmetry. apply lookup_replicate_None.
      apply lookup_ge_None in Hst. lia.
  - intros v Hv. apply list_elem_of_lookup in Hv as [k Hk].
    apply (Hcompl k v Hk). destruct (stages !! k) as [st|] eqn:Hst.
    + by rewrite (Hgone _ _ Hst).
    + apply lookup_ge_None in Hst. apply lookup_lt_Some in Hk. lia.
Qed.

(** Every run of a wave can be continued until the task group is drained;
    once it is, every unit has exited, the counter holds the number of
    incrementing units, and the slot holds the payload of a panicking
    unit if there is one, and nothing otherwise. *)
Lemma wave_outcome sched :
  (∃ more, drained (wave (sched ++ more) ws) = true) ∧
  (drained (wave sched ws) = true →
   mem (wave sched ws) = adds ws ∧
   goroutines (wave sched ws) = replicate (length ws) Exited ∧
   (∀ c, slot (wg (wave sched ws)) = Some c → panics (Value c) ∈ ws) ∧
   (∀ v, panics v ∈ ws → slot (wg (wave sched ws)) ≠ None)).
Proof.
  destruct (wave_reachable sched) as [stages Hm]. split.
  - destruct (wave_drains _ _ Hm) as [more Hmore].
    exists more. unfold wave. by rewrite exec_app.
  - by apply wave_final with stages.
Qed.

End WaveRuns.

(** ** The task group *)

Lemma Wait_drained {M : Type} (m : machine M) :
  Wait m ≠ Blocked ↔ drained m = true.
Proof.
  unfold Wait. destruct (drained m); [|naive_solver].
  by destruct (slot (wg m)).
Qed.

Lemma adds_replicate (N : nat) : adds (replicate N add1) = N.
Proof.
  unfold adds. induction N as [|N IH]; csimpl; [done | by rewrite IH].
Qed.

(** C9: for every [N], when [N] units that each increment a shared counter
    are spawned on a task group, the join ends under every schedule, it
    returns normally, and the counter is then exactly [N]: every spawned
    unit has run, once. *)
Theorem all_spawned_run (N : nat) (sched : list tick) :
  (∃ more, Wait (wave (sched ++ more) (replicate N add1)) ≠ Blocked) ∧
  (Wait (wave sched (replicate N add1)) = Blocked ∨
   Wait (wave sched (replicate N add1)) = Returns tt ∧
   mem (wave sched (replicate N add1)) = N ∧
   goroutines (wave sched (replicate N add1)) = replicate N Exited).
Proof.
  destruct (wave_outcome (replicate N add1) sched) as [[more Hmore] Hfin].
  split.
  - exists more. by apply Wait_drained.
  - unfold Wait. destruct (drained (wave sched _)) eqn:Hd; [right | by left].
    destruct (Hfin eq_refl) as (Hmem & Hg & Hsound & _).
    rewrite adds_replicate in Hmem. rewrite length_replicate in Hg.
    split_and!; [|done|done].
    destruct (slot _) as [c|] eqn:Hc; [|done].
    pose proof (Hsound c eq_refl) as Hin.
    apply elem_of_replicate in Hin as [? _]. done.
Qed.

(** C4: when some spawned unit panics, the join ends under every schedule
    and does not return normally: it re-raises the payload of a panicking
    unit, and by then every spawned unit has exited and the counter holds
    the increments of all the units that do not panic. *)
Theorem panic_is_propagated_after_all_ran (ws : list work)
    (sched : list tick) :
  (∃ v, panics v ∈ ws) →
  (∃ more, Wait (wave (sched ++ more) ws) ≠ Blocked) ∧
  (Wait (wave sched ws) = Blocked ∨
   (∃ v, panics v ∈ ws ∧ Wait (wave sched ws) = Panics v) ∧
   goroutines (wave sched ws) = replicate (length ws) Exited ∧
   mem (wave sched ws) = adds ws).
Proof.
  intros [v Hv].
  destruct (wave_outcome ws sched) as [[more Hmore] Hfin]. split.
  - exists more. by apply Wait_drained.
  - unfold Wait. destruct (drained (wave sched _)) eqn:Hd; [right | by left].
    destruct (Hfin eq_refl) as (Hmem & Hg & Hsound & Hcompl).
    split_and!; [|done|done].
    destruct (slot _) as [c|] eqn:Hc.
    + exists (Value c). split; [by apply Hsound | done].
    + by destruct (Hcompl v Hv).
Qed.

(** The test "nonpanics run successfully": the counter is 2 after the
    join has raised "super bad thing". *)
Lemma panic_is_propagated_after_all_ran_witness :
  let ws := [add1; panics "super bad thing"; add1] in
  let sched := [caller; caller; worker 1; caller; worker 2; worker 0;
                worker 0; worker 2] in
  Wait (wave sched ws) = Panics "super bad thing" ∧
  mem (wave sched ws) = 2 ∧
  ((∃ more, Wait (wave (sched ++ more) ws) ≠ Blocked) ∧
   (Wait (wave sched ws) = Blocked ∨
    (∃ v, panics v ∈ ws ∧ Wait (wave sched ws) = Panics v) ∧
    goroutines (wave sched ws) = replicate (length ws) Exited ∧
    mem (wave sched ws) = adds ws)).
Proof.
  intros ws sched. split; [reflexivity|]. split; [reflexivity|].
  apply (panic_is_propagated_after_all_ran ws sched).
  exists "super bad thing". apply list_elem_of_lookup. by exists 1.
Defined.

(** C5: once the slot of the task group holds a failure, no later step of
    the run changes it, whichever units complete or are spawned after the
    capture; the join, when it ends, raises that failure. *)
Theorem first_failure_wins {M : Type} (m : machine M) (c : CapturedFailure)
    (sched : list tick) :
  slot (wg m) = Some c →
  slot (wg (exec sched m)) = Some c ∧
  (Wait (exec sched m) = Blocked ∨ Wait (exec sched m) = Panics (Value c)).
Proof.
  intros Hc. pose proof (exec_slot_kept sched m c Hc) as Hc'.
  split; [done|]. unfold Wait. rewrite Hc'.
  destruct (drained _); [by right | by left].
Qed.

(** The test "nonpanics do not overwrite panic": the panic is captured
    first, ten empty units are spawned and complete after it. *)
Lemma first_failure_wins_witness :
  let m := wave [caller; worker 0]
             (panics "super bad thing" :: replicate 10 noop) in
  let sched := replicate 10 caller ++ (worker <$> seq 1 10) in
  slot (wg m) = Some (Recovered "super bad thing") ∧
  slot (wg (exec sched m)) = Some (Recovered "super bad thing") ∧
  (Wait (exec sched m) = Blocked ∨
   Wait (exec sched m) = Panics "super bad thing").
Proof.
  intros m sched. split; [reflexivity|].
  apply (first_failure_wins m (Recovered "super bad thing") sched).
  reflexivity.
Defined.

(** C6, as the task group has it: the non-raising join ends exactly when
    the raising one does, with every spawned unit exited and every
    increment made, and it never raises; it returns no failure value
    exactly when no unit panicked, and otherwise the one captured
    failure, whose text contains the text of its payload, the payload of
    one of the panicking units. *)
Theorem is_caught_by_waitsafe (ws : list work) (sched : list tick) :
  (∃ more, WaitSafe (wave (sched ++ more) ws) ≠ Blocked) ∧
  (WaitSafe (wave sched ws) = Blocked ↔ Wait (wave sched ws) = Blocked) ∧
  (∀ v, WaitSafe (wave sched ws) ≠ Panics v) ∧
  (∀ r, WaitSafe (wave sched ws) = Returns r →
     goroutines (wave sched ws) = replicate (length ws) Exited ∧
     mem (wave sched ws) = adds ws ∧
     match r with
     | Some c =>
         panics (Value c) ∈ ws ∧ Contains (AsError c) (Value c) = true
     | None => ∀ v, panics v ∉ ws
     end).
Proof.
  destruct (wave_outcome ws sched) as [[more Hmore] Hfin]. split_and!.
  - exists more. unfold WaitSafe. by rewrite Hmore.
  - unfold WaitSafe, Wait. destruct (drained (wave sched _)); [|done].
    by destruct (slot _).
  - intros v. unfold WaitSafe. by destruct (drained (wave sched _)).
  - intros r. unfold WaitSafe.
    destruct (drained (wave sched _)) eqn:Hd; [|done].
    intros [= <-]. destruct (Hfin eq_refl) as (Hmem & Hg & Hsound & Hcompl).
    split_and!; [done | done |].
    destruct (slot _) as [c|] eqn:Hc.
    + split; [by apply Hsound|]. apply Contains_append_r, Contains_refl.
    + intros v Hv. by destruct (Hcompl v Hv).
Qed.

(** The test "is caught by waitsafe". *)
Lemma is_caught_by_waitsafe_witness :
  let ws := [panics "super bad thing"] in
  let sched := [caller; worker 0] in
  ∃ c, WaitSafe (wave sched ws) = Returns (Some c) ∧
       panics (Value c) ∈ ws ∧
       Contains (AsError c) "super bad thing" = true.
Proof.
  intros ws sched. exists (Recovered "super bad thing").
  split; [reflexivity|].
  destruct (is_caught_by_waitsafe ws sched) as (_ & _ & _ & H).
  destruct (H (Some (Recovered "super bad thing")) eq_refl)
    as (_ & _ & Hin & Hc).
  split; [exact Hin | exact Hc].
Defined.

(** C6, as stated, fails when two units panic with different payloads:
    in the test "one is caught by waitsafe", when the second unit is the
    first to complete, the failure returned carries its payload only. *)
Lemma waitsafe_returns_one_failure :
  let ws := [panics "one bad thing"; panics "another bad thing"] in
  let sched := [caller; caller; worker 1; worker 0] in
  panics "one bad thing" ∈ ws ∧
  ∃ c, WaitSafe (wave sched ws) = Returns (Some c) ∧
       AsError c = "panic: another bad thing" ∧
       Contains (AsError c) "one bad thing" = false.
Proof.
  intros ws sched. split; [apply list_elem_of_here|].
  exists (Recovered "another bad thing"). by vm_compute.
Qed.

(** ** The parallel map *)
Section MapFacts.
Context {T R : Type} `{!Inhabited R}.
Variable g : T → R.
Variable input : list T.

Lemma Map_start :
  Map_inv g input []
    (start (iter.make (length input))
       (imap (iter.Map_func (iter.returning g)) input)).
Proof.
  split_and!; try done.
  - by apply shape_start.
  - apply length_replicate.
Qed.

Lemma Map_caller stages m :
  Map_inv g input stages m →
  ∃ stages', Map_inv g input stages' (step caller m) ∧
    (to_spawn m ≠ [] → fuel stages' (step caller m) < fuel stages m).
Proof.
  intros (Hs & Hlen & Hslot & Hres).
  destruct (to_spawn m) as [|u rest] eqn:Hu.
  - exists stages. split; [|done]. simpl. rewrite Hu. done.
  - destruct (shape_spawn input _ (draw_Map g) (fun _ _ => eq_refl)
                _ _ _ _ Hs Hu) as (Hs' & Hfuel & Hmem' & Hwg').
    exists (stages ++ [Fresh]). split; [|done].
    split_and!; try done.
    + by rewrite Hmem'.
    + by rewrite Hwg'.
    + rewrite Hmem'. intros k st t Hst Hne Ht. apply (Hres k st t); try done.
      apply lookup_app_Some in Hst as [Hst|[_ Hst]]; [done|].
      apply list_lookup_singleton_Some in Hst as [_ ?]. done.
Qed.

Lemma Map_worker k stages m :
  Map_inv g input stages m →
  ∃ stages', Map_inv g input stages' (step (worker k) m) ∧
    (∀ st, stages !! k = Some st → st ≠ Gone →
       fuel stages' (step (worker k) m) < fuel stages m).
Proof.
  intros (Hs & Hlen & Hslot & Hres).
  pose proof (step_accounted (worker k) m (proj2 (proj2 (proj2 Hs)))) as Ha.
  destruct (stages !! k) as [st|] eqn:Hst.
  2:{ exists stages. split; [|done]. simpl in *.
      rewrite (shape_lookup_None _ _ _ _ _ _ Hs Hst). done. }
  destruct (shape_lookup _ _ _ _ _ _ _ Hs Hst) as (t & Ht & Hgk).
  revert Ha. simpl. rewrite Hgk.
  assert (k < length (mem m)) as Hk.
  { rewrite Hlen. by apply lookup_lt_Some in Ht. }
  assert ((k <? length (mem m)) = true) as Hin by by apply Nat.ltb_lt.
  destruct st; simpl; intros Ha.
  1:{ exists (<[k := Returned]> stages). split.
      - split_and!; simpl.
        + eapply shape_update with (m := m); try done.
          simpl. by rewrite Hin.
        + by rewrite length_insert.
        + done.
        + intros k0 st0 t0 H0 Hne Ht0. lookup_at k H0.
          * by rewrite list_lookup_insert_eq.
          * rewrite list_lookup_insert_ne by done. eauto.
      - intros st ? _. simplify_eq.
        eapply fuel_update; [done | done | simpl; lia]. }
  6:{ exists stages. split; [done|]. intros st ? ?. by simplify_eq. }
  all: exists (<[k := Gone]> stages); split;
    [ split_and!; simpl;
      [ by eapply shape_update with (m := m) | done | done
      | intros k0 st0 t0 H0 Hne Ht0; lookup_at k H0;
        [ eapply Hres; [exact Hst | done | done] | eauto ] ]
    | intros st ? _; simplify_eq;
      eapply fuel_update; [done | done | simpl; lia] ].
Qed.

Lemma Map_reachable sched :
  ∃ stages, Map_inv g input stages
    (exec sched (start (iter.make (length input))
                   (imap (iter.Map_func (iter.returning g)) input))).
Proof.
  apply (exec_invariant (fun m => ∃ stages, Map_inv g input stages m)).
  - intros [|k] m [stages Hm].
    + destruct (Map_caller _ _ Hm) as (stages' & Hm' & _). eauto.
    + destruct (Map_worker k _ _ Hm) as (stages' & Hm' & _). eauto.
  - exists []. apply Map_start.
Qed.

Lemma Map_drains stages m :
  Map_inv g input stages m → ∃ more, drained (exec more m) = true.
Proof.
  apply (drains (Map_inv g input) fuel). clear stages m.
  intros stages m Hm Hd.
  destruct (to_spawn m) as [|u rest] eqn:Hu.
  - destruct (shape_live input (iter.Map_func (iter.returning g))
                (draw_Map g) stages m)
      as (k & st & Hst & Hne); [done | apply Hm | done | done |].
    destruct (Map_worker k _ _ Hm) as (stages' & Hm' & Hfuel).
    exists (worker k), stages'. eauto.
  - destruct (Map_caller _ _ Hm) as (stages' & Hm' & Hfuel).
    exists caller, stages'. split; [done|]. apply Hfuel. by rewrite Hu.
Qed.

Lemma Map_final stages m :
  Map_inv g input stages m → drained m = true →
  Wait m = Returns tt ∧ mem m = g <$> input.
Proof.
  intros (Hs & Hlen & Hslot & Hres) Hd.
  destruct (shape_drained _ _ _ _ _ Hs Hd) as [Hlens Hex].
  split.
  - unfold Wait. by rewrite Hd, Hslot.
  - apply list_eq. intros i. rewrite list_lookup_fmap.
    destruct (input !! i) as [t|] eqn:Ht; simpl.
    + destruct (stages !! i) as [st|] eqn:Hst.
      * apply (Hres i st t); try done.
        destruct (Hex i st Hst) as (t' & _ & Hdraw). by intros ->.
      * apply lookup_ge_None in Hst. apply lookup_lt_Some in Ht. lia.
    + apply lookup_ge_None. apply lookup_ge_None in Ht. lia.
Qed.

(** Under every schedule [Mapper.Map] ends, and it returns the transform
    of each element at the index of the element. *)
Lemma Mapper_Map_settles (mp : iter.Mapper) :
  settles (fun sched => iter.Mapper_Map mp sched input (iter.returning g))
    (fun r => r = Returns (g <$> input)).
Proof.
  intros sched. unfold iter.Mapper_Map, iter.ForEachIdx.
  destruct (Map_reachable sched) as [stages Hm]. split.
  - destruct (Map_drains _ _ Hm) as [more Hmore]. exists more.
    rewrite exec_app.
    destruct (Map_reachable (sched ++ more)) as [stages' Hm'].
    rewrite exec_app in Hm'.
    destruct (Map_final _ _ Hm' Hmore) as [-> _]. done.
  - destruct (drained (exec sched (start (iter.make (length input))
        (imap (iter.Map_func (iter.returning g)) input)))) eqn:Hd.
    + right. by destruct (Map_final _ _ Hm Hd) as [-> ->].
    + left. unfold Wait. by rewrite Hd.
Qed.

End MapFacts.

(** ** The error library *)

Lemma joined_Append_error (errs : option errors.joined) (err : errors.joined) :
  is_Some (errors.joined_Append errs (Some err)).
Proof. destruct errs; by eexists. Qed.

Lemma joined_Append_text (errs : option errors.joined)
    (err c : errors.joined) :
  errors.joined_Append errs (Some err) = Some c →
  Contains (errors.joined_Error c) (errors.joined_Error err) = true.
Proof.
  destruct errs as [a|]; simpl; intros [= <-].
  - simpl. apply Contains_append_r, Contains_append_r, Contains_refl.
  - apply Contains_refl.
Qed.

Lemma joined_Append_keeps (a err c : errors.joined) (s : string) :
  errors.joined_Append (Some a) (Some err) = Some c →
  Contains (errors.joined_Error a) s = true →
  Contains (errors.joined_Error c) s = true.
Proof. simpl. intros [= <-] Hs. simpl. by apply Contains_append_l. Qed.

(** The contract of the error library can be met. *)
#[global] Instance joined_Lib : errors.Lib := {|
  errors.error := errors.joined;
  errors.Error := errors.joined_Error;
  errors.Append := errors.joined_Append;
  errors.Append_nil := eq_refl;
  errors.Append_error := joined_Append_error;
  errors.Append_text := joined_Append_text;
  errors.Append_keeps := joined_Append_keeps
|}.

(** ** The parallel map with errors *)

Lemma b2n_le_1 (b : bool) : Nat.b2n b ≤ 1.
Proof. destruct b; simpl; lia. Qed.

Section MapErrFacts.
Context {T R : Type} `{!Inhabited R} `{!errors.Lib}.
Variable g : T → R * option errors.error.
Variable input : list T.

Lemma MapErr_worker k stages m :
  MapErr_inv g input stages m →
  ∃ stages', MapErr_inv g input stages' (step (worker k) m) ∧
    (∀ st, stages !! k = Some st → st ≠ Gone →
       iter.errMux (mem m) = false ∨ holds st = 1 →
       fuel stages' (step (worker k) m) < fuel stages m).
Proof.
  intros Hinv.
  pose proof Hinv
    as (Hs & Hlen & Hslot & Hres & Hmux & Hvalid & Hread & Herrs & Hnone).
  pose proof (step_accounted (worker k) m (proj2 (proj2 (proj2 Hs)))) as Ha.
  destruct (stages !! k) as [st|] eqn:Hst.
  2:{ exists stages. split; [|done]. simpl in *.
      rewrite (shape_lookup_None _ _ _ _ _ _ Hs Hst). done. }
  destruct (shape_lookup _ _ _ _ _ _ _ Hs Hst) as (t & Ht & Hgk).
  revert Ha. simpl. rewrite Hgk.
  assert (k < length (iter.res (mem m))) as Hk.
  { rewrite Hlen. by apply lookup_lt_Some in Ht. }
  assert ((k <? length (iter.res (mem m))) = true) as Hrange
    by by apply Nat.ltb_lt.
  pose proof (sum_list_lookup_le holds _ _ _ Hst) as Hle.
  pose proof (b2n_le_1 (iter.errMux (mem m))) as Hb.
  assert (∀ st', sum_list (holds <$> <[k := st']> stages) + holds st =
                 Nat.b2n (iter.errMux (mem m)) + holds st') as Hsum.
  { intros st'. rewrite <- Hmux. by apply sum_list_insert. }
  pose proof (Hvalid k st t Hst) as Hsome.
  unfold draw_MapErr, iter.MapErr_func, iter.returning, iter.call.
  destruct (g t) as [r err] eqn:Hgt. simpl in *.
  destruct st; simpl.
  - (* res[k] = r *)
    intros Ha. exists (<[k := Stored]> stages). split.
    + split_and!; simpl.
      * eapply shape_update with (m := m); try done.
        simpl. unfold draw_MapErr. by rewrite Hgt, Hrange.
      * by rewrite length_insert.
      * done.
      * intros k0 st0 t0 H0 Hne Ht0. lookup_at k H0.
        -- by rewrite list_lookup_insert_eq, Hgt.
        -- rewrite list_lookup_insert_ne by done. eauto.
      * specialize (Hsum Stored). simpl in Hsum. lia.
      * intros k0 st0 t0 H0 Hh Ht0. lookup_at k H0; eauto.
      * intros k0 h H0. lookup_at k H0. eauto.
      * intros k0 st0 t0 e H0 Hap Ht0 He. lookup_at k H0; eauto.
      * done.
    + intros st ? _ _. simplify_eq.
      eapply fuel_update; [done | done | simpl; lia].
  - destruct err as [e|]; simpl.
    + (* errMux.Lock() *)
      destruct (iter.errMux (mem m)) eqn:Hm; simpl.
      * intros _. exists stages. split; [done|].
        intros st ? _ [?|?]; by simplify_eq.
      * intros Ha. exists (<[k := Locked]> stages). split.
        -- split_and!; simpl.
           ++ eapply shape_update with (m := m); try done.
              simpl. unfold draw_MapErr. by rewrite Hgt.
           ++ done.
           ++ done.
           ++ intros k0 st0 t0 H0 Hne Ht0. lookup_at k H0; [|eauto].
              eapply Hres; [exact Hst | done | done].
           ++ specialize (Hsum Locked). simpl in Hsum. lia.
           ++ intros k0 st0 t0 H0 Hh Ht0. lookup_at k H0; [|eauto].
              by rewrite Hgt.
           ++ intros k0 h H0. lookup_at k H0. eauto.
           ++ intros k0 st0 t0 e0 H0 Hap Ht0 He. lookup_at k H0; eauto.
           ++ done.
        -- intros st ? _ _. simplify_eq.
           eapply fuel_update; [done | done | simpl; lia].
    + (* the function returns: no error to append *)
      intros Ha. exists (<[k := Gone]> stages). split.
      * split_and!; simpl.
        -- by eapply shape_update with (m := m).
        -- done.
        -- done.
        -- intros k0 st0 t0 H0 Hne Ht0. lookup_at k H0; [|eauto].
           eapply Hres; [exact Hst | done | done].
        -- specialize (Hsum Gone). simpl in Hsum. lia.
        -- intros k0 st0 t0 H0 Hh Ht0. lookup_at k H0; eauto.
        -- intros k0 h H0. lookup_at k H0. eauto.
        -- intros k0 st0 t0 e0 H0 Hap Ht0 He. lookup_at k H0; [|eauto].
           by rewrite Hgt in He.
        -- done.
      * intros st ? _ _. simplify_eq.
        eapply fuel_update; [done | done | simpl; lia].
  - (* the read of errs *)
    intros Ha. exists (<[k := Read (mem m)]> stages). split.
    + split_and!; simpl.
      * eapply shape_update with (m := m); try done.
        simpl. unfold draw_MapErr. by rewrite Hgt.
      * done.
      * done.
      * intros k0 st0 t0 H0 Hne Ht0. lookup_at k H0; [|eauto].
        eapply Hres; [exact Hst | done | done].
      * specialize (Hsum (Read (mem m))). simpl in Hsum. lia.
      * intros k0 st0 t0 H0 Hh Ht0. lookup_at k H0; [|eauto].
        rewrite Hgt. by apply Hsome.
      * intros k0 h H0. lookup_at k H0; eauto.
      * intros k0 st0 t0 e0 H0 Hap Ht0 He. lookup_at k H0; eauto.
      * done.
    + intros st ? _ _. simplify_eq.
      eapply fuel_update; [done | done | simpl; lia].
  - (* errs = errors.Append(errs, err) *)
    pose proof (Hread k h Hst) as Hh.
    destruct (Hsome eq_refl Ht) as [e ->].
    destruct (errors.Append_error (iter.errs h) e) as [c Hc].
    intros Ha. exists (<[k := Appended]> stages). split.
    + split_and!; simpl.
      * eapply shape_update with (m := m); try done.
      * done.
      * done.
      * intros k0 st0 t0 H0 Hne Ht0. lookup_at k H0; [|eauto].
        eapply Hres; [exact Hst | done | done].
      * specialize (Hsum Appended). simpl in Hsum. lia.
      * intros k0 st0 t0 H0 Hh0 Ht0. lookup_at k H0; [|eauto].
        rewrite Hgt. by eexists.
      * intros k0 h1 H0. lookup_at k H0.
        pose proof (sum_list_lookup_le2 holds stages k0 k _ _
                      ltac:(done) H0 Hst) as Hle2.
        simpl in Hle2. lia.
      * intros k0 st0 t0 e0 H0 Hap Ht0 He. exists c. split; [done|].
        lookup_at k H0.
        -- rewrite Hgt in He. simpl in He. simplify_eq.
           by eapply errors.Append_text.
        -- destruct (Herrs k0 st0 t0 e0 H0 Hap Ht0 He) as (a & Hera & Hin).
           rewrite Hh, Hera in Hc. by eapply errors.Append_keeps.
      * intros Hall. specialize (Hall t). rewrite Hgt in Hall.
        discriminate Hall. apply list_elem_of_lookup. by exists k.
    + intros st ? _ _. simplify_eq.
      eapply fuel_update; [done | done | simpl; lia].
  - (* errMux.Unlock() *)
    intros Ha. exists (<[k := Returned]> stages). split.
    + split_and!; simpl.
      * eapply shape_update with (m := m); try done.
      * done.
      * done.
      * intros k0 st0 t0 H0 Hne Ht0. lookup_at k H0; [|eauto].
        eapply Hres; [exact Hst | done | done].
      * specialize (Hsum Returned). simpl in Hsum, Hle. lia.
      * intros k0 st0 t0 H0 Hh Ht0. lookup_at k H0; eauto.
      * intros k0 h H0. lookup_at k H0. eauto.
      * intros k0 st0 t0 e0 H0 Hap Ht0 He. lookup_at k H0; [|eauto].
        eapply Herrs; [exact Hst | done | done | done].
      * done.
    + intros st ? _ _. simplify_eq.
      eapply fuel_update; [done | done | simpl; lia].
  - (* the function returns *)
    intros Ha. exists (<[k := Gone]> stages). split.
    + split_and!; simpl.
      * eapply shape_update with (m := m); try done.
      * done.
      * done.
      * intros k0 st0 t0 H0 Hne Ht0. lookup_at k H0; [|eauto].
        eapply Hres; [exact Hst | done | done].
      * specialize (Hsum Gone). simpl in Hsum. lia.
      * intros k0 st0 t0 H0 Hh Ht0. lookup_at k H0; eauto.
      * intros k0 h H0. lookup_at k H0. eauto.
      * intros k0 st0 t0 e0 H0 Hap Ht0 He. lookup_at k H0; [|eauto].
        eapply Herrs; [exact Hst | done | done | done].
      * done.
    + intros st ? _ _. simplify_eq.
      eapply fuel_update; [done | done | simpl; lia].
  - intros _. exists stages. split; [done|]. intros st ? ?. by simplify_eq.
Qed.

Lemma MapErr_start :
  MapErr_inv g input []
    (start {| iter.res := iter.make (length input); iter.errMux := false;
              iter.errs := None |}
       (imap (iter.MapErr_func (iter.returning g)) input)).
Proof.
  split_and!; try done.
  - by apply shape_start.
  - apply length_replicate.
Qed.

Lemma MapErr_caller stages m :
  MapErr_inv g input stages m →
  ∃ stages', MapErr_inv g input stages' (step caller m) ∧
    (to_spawn m ≠ [] → fuel stages' (step caller m) < fuel stages m).
Proof.
  intros Hinv.
  pose proof Hinv
    as (Hs & Hlen & Hslot & Hres & Hmux & Hvalid & Hread & Herrs & Hnone).
  destruct (to_spawn m) as [|u rest] eqn:Hu.
  - exists stages. split; [|done]. simpl. rewrite Hu. done.
  - destruct (shape_spawn input _ (draw_MapErr g) (fun _ _ => eq_refl)
                _ _ _ _ Hs Hu) as (Hs' & Hfuel & Hmem' & Hwg').
    exists (stages ++ [Fresh]). split; [|done].
    split_and!; rewrite ?Hmem', ?Hwg'; try done.
    + intros k st t Hst Hne Ht. apply (Hres k st t); try done.
      apply lookup_app_Some in Hst as [Hst|[_ Hst]]; [done|].
      apply list_lookup_singleton_Some in Hst as [_ ?]. done.
    + rewrite fmap_app. csimpl. rewrite sum_list_snoc. simpl. lia.
    + intros k st t Hst Hh.
      apply lookup_app_Some in Hst as [Hst|[_ Hst]]; [by eapply Hvalid|].
      apply list_lookup_singleton_Some in Hst as [_ <-]. done.
    + intros k h Hst. apply (Hread k h).
      apply lookup_app_Some in Hst as [Hst|[_ Hst]]; [done|].
      apply list_lookup_singleton_Some in Hst as [_ ?]. done.
    + intros k st t e Hst Hap. apply (Herrs k st t e); [|done].
      apply lookup_app_Some in Hst as [Hst|[_ Hst]]; [done|].
      apply list_lookup_singleton_Some in Hst as [_ <-]. done.
Qed.

Lemma MapErr_reachable sched :
  ∃ stages, MapErr_inv g input stages
    (exec sched
       (start {| iter.res := iter.make (length input);
                 iter.errMux := false; iter.errs := None |}
          (imap (iter.MapErr_func (iter.returning g)) input))).
Proof.
  apply (exec_invariant (fun m => ∃ stages, MapErr_inv g input stages m)).
  - intros [|k] m [stages Hm].
    + destruct (MapErr_caller _ _ Hm) as (stages' & Hm' & _). eauto.
    + destruct (MapErr_worker k _ _ Hm) as (stages' & Hm' & _). eauto.
  - exists []. apply MapErr_start.
Qed.

(** No run deadlocks on the mutex: while it is held, its holder can move;
    while it is free, every live goroutine can. *)
Lemma MapErr_drains stages m :
  MapErr_inv g input stages m → ∃ more, drained (exec more m) = true.
Proof.
  apply (drains (MapErr_inv g input) fuel). clear stages m.
  intros stages m Hm Hd.
  destruct (to_spawn m) as [|u rest] eqn:Hu.
  - destruct (iter.errMux (mem m)) eqn:Hmux.
    + pose proof Hm as (Hs & Hlen & Hslot & Hres & Hsum & Hrest).
      rewrite Hmux in Hsum. simpl in Hsum.
      destruct (sum_list_positive holds stages) as (k & st & Hst & Hpos);
        [lia|].
      destruct (MapErr_worker k _ _ Hm) as (stages' & Hm' & Hfuel).
      exists (worker k), stages'. split; [done|].
      apply (Hfuel st Hst).
      * intros ->. simpl in Hpos. lia.
      * right. destruct st; simpl in Hpos; (done || lia).
    + destruct (shape_live input (iter.MapErr_func (iter.returning g))
                  (draw_MapErr g) stages m)
        as (k & st & Hst & Hne); [done | apply Hm | done | done |].
      destruct (MapErr_worker k _ _ Hm) as (stages' & Hm' & Hfuel).
      exists (worker k), stages'. split; [done|]. apply (Hfuel st); auto.
  - destruct (MapErr_caller _ _ Hm) as (stages' & Hm' & Hfuel).
    exists caller, stages'. split; [done|]. apply Hfuel. by rewrite Hu.
Qed.

Lemma MapErr_final stages m :
  MapErr_inv g input stages m → drained m = true →
  Wait m = Returns tt ∧
  iter.res (mem m) = (fun t => (g t).1) <$> input ∧
  (∀ t e, t ∈ input → (g t).2 = Some e →
     ∃ c, iter.errs (mem m) = Some c ∧
          Contains (errors.Error c) (errors.Error e) = true) ∧
  ((∀ t, t ∈ input → (g t).2 = None) → iter.errs (mem m) = None).
Proof.
  intros (Hs & Hlen & Hslot & Hres & Hmux & Hvalid & Hread & Herrs & Hnone) Hd.
  destruct (shape_drained _ _ _ _ _ Hs Hd) as [Hlens Hex].
  assert (∀ k st, stages !! k = Some st → st = Gone) as Hgone.
  { intros k st Hst. destruct (Hex k st Hst) as (t & _ & Hdraw).
    by destruct st. }
  split_and!; [| | |done].
  - unfold Wait. by rewrite Hd, Hslot.
  - apply list_eq. intros i. rewrite list_lookup_fmap.
    destruct (input !! i) as [t|] eqn:Ht; simpl.
    + destruct (stages !! i) as [st|] eqn:Hst.
      * apply (Hres i st t); try done. by rewrite (Hgone _ _ Hst).
      * apply lookup_ge_None in Hst. apply lookup_lt_Some in Ht. lia.
    + apply lookup_ge_None. apply lookup_ge_None in Ht. lia.
  - intros t e Ht He. apply list_elem_of_lookup in Ht as [k Hk].
    destruct (stages !! k) as [st|] eqn:Hst.
    + apply (Herrs k st t e); try done. by rewrite (Hgone _ _ Hst).
    + apply lookup_ge_None in Hst. apply lookup_lt_Some in Hk. lia.
Qed.

(** Under every schedule [Mapper.MapErr] ends; it returns the value of
    the transform of each element at the index of the element, and an
    error that is nil when no element reported one and otherwise contains
    the text of every error reported. *)
Lemma Mapper_MapErr_settles (mp : iter.Mapper) :
  settles (fun sched => iter.Mapper_MapErr mp sched input (iter.returning g))
    (fun r => ∃ res errs, r = Returns (res, errs) ∧
       res = (fun t => (g t).1) <$> input ∧
       (∀ t e, t ∈ input → (g t).2 = Some e →
          ∃ c, errs = Some c ∧
               Contains (errors.Error c) (errors.Error e) = true) ∧
       ((∀ t, t ∈ input → (g t).2 = None) → errs = None)).
Proof.
  intros sched. unfold iter.Mapper_MapErr, iter.ForEachIdx.
  destruct (MapErr_reachable sched) as [stages Hm]. split.
  - destruct (MapErr_drains _ _ Hm) as [more Hmore]. exists more.
    rewrite exec_app.
    destruct (MapErr_reachable (sched ++ more)) as [stages' Hm'].
    rewrite exec_app in Hm'.
    destruct (MapErr_final _ _ Hm' Hmore) as [-> _]. done.
  - destruct (drained (exec sched
        (start {| iter.res := iter.make (length input);
                  iter.errMux := false; iter.errs := None |}
           (imap (iter.MapErr_func (iter.returning g)) input)))) eqn:Hd.
    + right. destruct (MapErr_final _ _ Hm Hd) as (-> & Hr & He & Hn).
      eauto 10.
    + left. unfold Wait. by rewrite Hd.
Qed.

End MapErrFacts.

(** ** The claims on the parallel map *)

Lemma settles_impl {A : Type} (run : list tick → result A)
    (P Q : result A → Prop) :
  (∀ r, P r → Q r) → settles run P → settles run Q.
Proof.
  intros HPQ Hrun sched. destruct (Hrun sched) as [Hend Hout].
  split; [done|]. destruct Hout; [by left | right; by apply HPQ].
Qed.

Lemma failures_zero {T R : Type} `{!errors.Lib}
    (g : T → R * option errors.error)
    (input : list T) :
  failures g input = 0 ↔ ∀ t, t ∈ input → (g t).2 = None.
Proof.
  unfold failures. induction input as [|a l IH].
  - split; [|done]. intros _ t Ht. by apply elem_of_nil in Ht.
  - rewrite filter_cons. destruct (decide (is_Some (g a).2)) as [Hs|Hn].
    + split; [done|]. intros Hall. destruct Hs as [e He].
      rewrite (Hall a) in He by apply list_elem_of_here. done.
    + rewrite IH. split.
      * intros Hall t Ht. apply elem_of_cons in Ht as [->|Ht]; [|by apply Hall].
        destruct (g a).2 eqn:E; [|done]. destruct Hn. by eexists.
      * intros Hall t Ht. apply Hall. by apply list_elem_of_further.
Qed.

Lemma failures_positive {T R : Type} `{!errors.Lib}
    (g : T → R * option errors.error)
    (input : list T) :
  0 < failures g input ↔ ∃ t e, t ∈ input ∧ (g t).2 = Some e.
Proof.
  unfold failures. induction input as [|a l IH].
  - split; [simpl; lia|]. intros (t & e & Ht & _). by apply elem_of_nil in Ht.
  - rewrite filter_cons. destruct (decide (is_Some (g a).2)) as [Hs|Hn].
    + split; [|simpl; lia]. intros _. destruct Hs as [e He].
      exists a, e. split; [apply list_elem_of_here | done].
    + rewrite IH. split.
      * intros (t & e & Ht & He). exists t, e.
        split; [by apply list_elem_of_further | done].
      * intros (t & e & Ht & He).
        apply elem_of_cons in Ht as [->|Ht]; [|by exists t, e].
        destruct Hn. by eexists.
Qed.

Section MapClaims.
Context {T R : Type} `{!Inhabited R} `{!errors.Lib}.

(** C1: for every input and every transform [g], [Map] ends under every
    schedule and returns a slice of the length of the input whose element
    at each index is [g] of the input element at that index, whatever the
    order in which the invocations complete. *)
Theorem Map_is_ordered_by_index (mp : iter.Mapper) (input : list T)
    (g : T → R) :
  settles (fun sched => iter.Mapper_Map mp sched input (iter.returning g))
    (fun r => ∃ res, r = Returns res ∧
       length res = length input ∧
       ∀ i t, input !! i = Some t → res !! i = Some (g t)).
Proof.
  eapply settles_impl; [|apply Mapper_Map_settles].
  intros r ->. exists (g <$> input). split_and!; [done | |].
  - by rewrite length_fmap.
  - intros i t Ht. by rewrite list_lookup_fmap, Ht.
Qed.

(** C10: on an empty input [Map] returns the empty slice and [MapErr] the
    empty slice and a nil error, under every schedule and for every
    transform, also one that would panic or never return if it were
    invoked: the transform is not invoked. *)
Theorem empty_input_invokes_nothing (mp : iter.Mapper) (sched : list tick)
    (f : T → result R) (fe : T → result (R * option errors.error)) :
  iter.Mapper_Map mp sched [] f = Returns [] ∧
  iter.Mapper_MapErr mp sched [] fe = Returns ([], None).
Proof.
  assert (∀ M (h : M), exec sched (start h []) = start h []) as Hidle.
  { intros M h. induction sched as [|[|k] l IH]; [done | exact IH | exact IH]. }
  unfold iter.Mapper_Map, iter.Mapper_MapErr, iter.ForEachIdx. simpl.
  by rewrite !Hidle.
Qed.

(** C2: for every error library that meets the contract, [MapErr] ends
    under every schedule, and the error it returns is non-nil exactly
    when the number [k] of elements whose transform reports an error is
    positive; for [k = 0] it is nil. *)
Theorem MapErr_error_iff_some_failed (mp : iter.Mapper) (input : list T)
    (g : T → R * option errors.error) :
  settles (fun sched => iter.Mapper_MapErr mp sched input (iter.returning g))
    (fun r => ∃ res errs, r = Returns (res, errs) ∧
       (errs ≠ None ↔ 0 < failures g input) ∧
       (failures g input = 0 → errs = None)).
Proof.
  eapply settles_impl; [|apply Mapper_MapErr_settles].
  intros r (res & errs & -> & _ & Hin & Hnone). exists res, errs.
  split_and!; [done | |].
  - rewrite failures_positive. split.
    + intros Hne. destruct (decide (failures g input = 0)) as [H0|H0].
      * destruct Hne. by apply Hnone, failures_zero.
      * apply failures_positive. lia.
    + intros (t & e & Ht & He). destruct (Hin t e Ht He) as (c & -> & _).
      done.
  - intros H0. by apply Hnone, failures_zero.
Qed.

(** C3: [MapErr] ends under every schedule, and the slice it returns has
    the length of the input and holds at every index the value the
    transform returned for the element at that index, whether or not the
    transform reported an error for that element or for any other. *)
Theorem MapErr_sets_every_index (mp : iter.Mapper) (input : list T)
    (g : T → R * option errors.error) :
  settles (fun sched => iter.Mapper_MapErr mp sched input (iter.returning g))
    (fun r => ∃ res errs, r = Returns (res, errs) ∧
       length res = length input ∧
       ∀ i t, input !! i = Some t → res !! i = Some (g t).1).
Proof.
  eapply settles_impl; [|apply Mapper_MapErr_settles].
  intros r (res & errs & -> & -> & _). eexists _, errs.
  split_and!; [done | |].
  - by rewrite length_fmap.
  - intros i t Ht. by rewrite list_lookup_fmap, Ht.
Qed.

(** C7: for every error library that meets the contract, [MapErr] ends
    under every schedule, and the text of the error it returns contains
    the text of the error reported for each element. *)
Theorem MapErr_text_has_every_error (mp : iter.Mapper) (input : list T)
    (g : T → R * option errors.error) :
  settles (fun sched => iter.Mapper_MapErr mp sched input (iter.returning g))
    (fun r => ∃ res errs, r = Returns (res, errs) ∧
       ∀ t e, t ∈ input → (g t).2 = Some e →
         ∃ c, errs = Some c ∧
              Contains (errors.Error c) (errors.Error e) = true).
Proof.
  eapply settles_impl; [|apply Mapper_MapErr_settles].
  intros r (res & errs & -> & _ & Hin & _). by exists res, errs.
Qed.

End MapClaims.

(** C8: [Map] with the identity transform ends under every schedule and
    returns a slice equal to its input, for an input of any length. *)
Theorem Map_identity_round_trip {T : Type} `{!Inhabited T}
    (mp : iter.Mapper) (input : list T) :
  settles (fun sched => iter.Mapper_Map mp sched input
                          (iter.returning (fun t => t)))
    (fun r => r = Returns input).
Proof.
  eapply settles_impl; [|apply Mapper_Map_settles].
  intros r ->. by rewrite list_fmap_id.
Qed.

(** ** The scenarios of the spec and of the tests *)

(** [Map] over [1, 2, 3], the invocations completing in the order
    2, 0, 1. *)
Lemma Map_is_ordered_by_index_witness :
  let sched := [caller; caller; caller; worker 2; worker 0; worker 2;
                worker 1; worker 0; worker 1] in
  iter.Map sched [1; 2; 3] (iter.returning (fun x => x * 2))
    = Returns [2; 4; 6] ∧
  settles (fun sched => iter.Map sched [1; 2; 3]
                          (iter.returning (fun x => x * 2)))
    (fun r => ∃ res, r = Returns res ∧
       length res = 3 ∧
       ∀ i t, [1; 2; 3] !! i = Some t → res !! i = Some (t * 2)).
Proof.
  split; [reflexivity|].
  apply (Map_is_ordered_by_index _ [1; 2; 3] (fun x => x * 2)).
Defined.

(** [MapErr] over [1, 2, 3] with an error for 2: one element fails, the
    error is non-nil. *)
Lemma MapErr_error_iff_some_failed_witness :
  let sched := [caller; caller; caller; worker 1; worker 0; worker 1;
                worker 2; worker 1; worker 1; worker 0; worker 1;
                worker 2; worker 1] in
  failures double_but_two [1; 2; 3] = 1 ∧
  iter.MapErr sched [1; 2; 3] (iter.returning double_but_two)
    = Returns ([2; 4; 6], Some (errors.New "two is bad")) ∧
  settles (fun sched => iter.MapErr sched [1; 2; 3]
                          (iter.returning double_but_two))
    (fun r => ∃ res errs, r = Returns (res, errs) ∧
       (errs ≠ None ↔ 0 < failures double_but_two [1; 2; 3]) ∧
       (failures double_but_two [1; 2; 3] = 0 → errs = None)).
Proof.
  split; [reflexivity|]. split; [reflexivity|].
  apply (@MapErr_error_iff_some_failed nat nat _ joined_Lib _ [1; 2; 3]
           double_but_two).
Defined.

(** In the same scenario the values are [2, 4, 6]: the value of the
    failing element is stored like the others. *)
Lemma MapErr_sets_every_index_witness :
  let sched := [caller; worker 0; caller; worker 1; worker 1; caller;
                worker 2; worker 2; worker 1; worker 1; worker 1;
                worker 1; worker 0] in
  iter.MapErr sched [1; 2; 3] (iter.returning double_but_two)
    = Returns ([2; 4; 6], Some (errors.New "two is bad")) ∧
  settles (fun sched => iter.MapErr sched [1; 2; 3]
                          (iter.returning double_but_two))
    (fun r => ∃ res errs, r = Returns (res, errs) ∧
       length res = 3 ∧
       ∀ i t, [1; 2; 3] !! i = Some t →
              res !! i = Some (double_but_two t).1).
Proof.
  split; [reflexivity|].
  apply (@MapErr_sets_every_index nat nat _ joined_Lib _ [1; 2; 3]
           double_but_two).
Defined.

(** Two failing elements, the second taking the mutex first: the text of
    the combined error contains both texts. *)
Lemma MapErr_text_has_every_error_witness :
  let g := fun x : nat =>
             (x, if Nat.eqb x 3 then None
                 else Some (errors.New (if Nat.eqb x 1 then "one" else "two")))
  in
  let sched := [caller; caller; caller; worker 0; worker 1; worker 1;
                worker 0; worker 1; worker 0; worker 1; worker 1;
                worker 0; worker 0; worker 0; worker 0; worker 2;
                worker 1; worker 0; worker 2] in
  (∃ c, iter.MapErr sched [1; 2; 3] (iter.returning g)
          = Returns ([1; 2; 3], Some c) ∧
        Contains (errors.joined_Error c) "one" = true ∧
        Contains (errors.joined_Error c) "two" = true) ∧
  settles (fun sched => iter.MapErr sched [1; 2; 3] (iter.returning g))
    (fun r => ∃ res errs, r = Returns (res, errs) ∧
       ∀ t e, t ∈ [1; 2; 3] → (g t).2 = Some e →
         ∃ c, errs = Some c ∧
              Contains (errors.Error c) (errors.Error e) = true).
Proof.
  intros g sched. split.
  - exists (errors.multiError (errors.New "two") (errors.New "one")).
    split; [reflexivity|]. split; reflexivity.
  - apply (@MapErr_text_has_every_error nat nat _ joined_Lib _ [1; 2; 3] g).
Defined.

(** [ExampleWaitGroup]: ten units, each adding one; the join returns
    with the counter at ten. *)
Example ten_units_count_to_ten :
  let sched := replicate 10 caller ++ (worker <$> seq 0 10)
               ++ (worker <$> seq 0 10) in
  Wait (wave sched (replicate 10 add1)) = Returns tt ∧
  mem (wave sched (replicate 10 add1)) = 10.
Proof. split; reflexivity. Qed.

(** While a unit has not finished the join is blocked. *)
Example join_blocks_until_all_finished :
  Wait (wave [caller; caller; worker 0; worker 0] [add1; add1]) = Blocked.
Proof. reflexivity. Qed.

(** A transform that panics: the panic is re-raised by [Map] once every
    invocation has finished. *)
Example Map_propagates_panic :
  iter.Map [caller; caller; worker 0; worker 1; worker 1] [1; 2]
    (fun x => if Nat.eqb x 1 then Panics "bad element" else Returns x)
  = Panics "bad element".
Proof. reflexivity. Qed.

(** On an empty input a transform that always panics is harmless. *)
Example Map_of_nothing_calls_nothing :
  iter.Map [worker 0; caller] ([] : list nat)
    (fun _ => Panics "called" : result nat) = Returns [].
Proof. reflexivity. Qed.

(** Two failing elements whose goroutines both reach the mutex: the
    second cannot take it, and so cannot read [errs], before the first
    has stored the combined error and released it. *)
Example mutex_orders_the_appends :
  let g := fun x : nat => (x, Some (errors.New (if Nat.eqb x 1 then "one" else "two"))) in
  iter.MapErr [caller; caller; worker 0; worker 1; worker 0; worker 0;
               worker 1; worker 1; worker 1; worker 0; worker 0; worker 0;
               worker 0; worker 1; worker 1; worker 1; worker 1; worker 1;
               worker 1]
    [1; 2] (iter.returning g)
  = Returns ([1; 2], Some (errors.multiError (errors.New "one")
                             (errors.New "two"))).
Proof. reflexivity. Qed.

(** * More on the task group and the parallel map *)

(** ** Joins of arbitrary units *)
Section JoinFacts.
Context {M : Type}.
Implicit Types (m : machine M) (t : tick) (sched : list tick).

Lemma step_census t m :
  length (goroutines (step t m)) + length (to_spawn (step t m)) =
  length (goroutines m) + length (to_spawn m).
Proof.
  destruct t as [|k]; simpl.
  - destruct (to_spawn m) eqn:Hu; simpl; [by rewrite Hu|].
    rewrite length_app. simpl. lia.
  - destruct (goroutines m !! k) as [[[|v|en eff next]|]|]; simpl;
      rewrite ?length_insert; try done.
    destruct (en (mem m)); simpl; by rewrite ?length_insert.
Qed.

Lemma reachable_accounted (h : M) (units : list (proc M)) sched :
  accounted (exec sched (start h units)) ∧
  length (goroutines (exec sched (start h units))) +
    length (to_spawn (exec sched (start h units))) = length units.
Proof.
  apply (exec_invariant (fun m =>
    accounted m ∧
    length (goroutines m) + length (to_spawn m) = length units)).
  - intros t m [Ha Hn]. split; [by apply step_accounted|].
    by rewrite step_census.
  - split; [apply start_accounted | done].
Qed.

Lemma drained_step t m :
  accounted m → drained m = true → step t m = m.
Proof.
  intros Ha Hd. apply drained_true in Hd as [Hnil H0].
  destruct t as [|k]; simpl.
  - by rewrite Hnil.
  - destruct (goroutines m !! k) as [g|] eqn:Hk; [|done].
    by rewrite (accounted_all_exited m Ha H0 k g Hk).
Qed.

Lemma drained_exec sched m :
  accounted m → drained m = true → exec sched m = m.
Proof.
  intros Ha Hd. induction sched as [|t sched IH]; [done|].
  simpl. by rewrite drained_step.
Qed.

(** X8: whatever the units do, a join that has ended has waited for all of
    them: every unit has been started and has exited, and no further
    scheduling changes the memory or the task group. *)
Theorem join_ends_after_every_unit (h : M) (units : list (proc M))
    (sched : list tick) :
  Wait (exec sched (start h units)) ≠ Blocked →
  goroutines (exec sched (start h units)) = replicate (length units) Exited ∧
  ∀ more, exec (sched ++ more) (start h units) = exec sched (start h units).
Proof.
  intros Hw. apply Wait_drained in Hw.
  destruct (reachable_accounted h units sched) as [Ha Hn].
  split.
  - pose proof Hw as Hd. apply drained_true in Hd as [Hnil H0].
    rewrite Hnil in Hn. simpl in Hn. rewrite Nat.add_0_r in Hn.
    apply list_eq. intros i.
    destruct (goroutines (exec sched (start h units)) !! i) as [g|] eqn:Hi.
    + rewrite (accounted_all_exited _ Ha H0 i g Hi). symmetry.
      apply lookup_replicate_2. apply lookup_lt_Some in Hi. lia.
    + symmetry. apply lookup_replicate_None.
      apply lookup_ge_None in Hi. lia.
  - intros more. rewrite exec_app. by apply drained_exec.
Qed.


End JoinFacts.

(** A wave of two increments, joined and then scheduled further. *)
Lemma join_ends_after_every_unit_witness :
  let units := body <$> [add1; add1] in
  let sched := [caller; worker 0; caller; worker 1; worker 1; worker 0] in
  goroutines (exec sched (start 0 units)) = replicate (length units) Exited ∧
  ∀ more, exec (sched ++ more) (start 0 units) = exec sched (start 0 units).
Proof.
  intros units sched. apply (join_ends_after_every_unit 0 units sched).
  discriminate.
Defined.

(** ** The parallel map of a transform that may panic *)
Section MapAnyFacts.
Context {T R : Type} `{!Inhabited R}.
Variable f : T → result R.
Variable input : list T.
Hypothesis f_ends : ∀ t, t ∈ input → f t ≠ Blocked.

Lemma Map_any_start :
  Map_any_inv f input []
    (start (iter.make (length input)) (imap (iter.Map_func f) input)).
Proof.
  split_and!; try done.
  - by apply shape_start.
  - apply length_replicate.
Qed.

Lemma Map_any_caller stages m :
  Map_any_inv f input stages m →
  ∃ stages', Map_any_inv f input stages' (step caller m) ∧
    (to_spawn m ≠ [] → fuel stages' (step caller m) < fuel stages m).
Proof.
  intros (Hs & Hlen & Hres & Hsound & Hcompl & Hvalid).
  destruct (to_spawn m) as [|u rest] eqn:Hu.
  - exists stages. split; [|done]. simpl. rewrite Hu. done.
  - destruct (shape_spawn input _ (draw_Map_any f) (fun _ _ => eq_refl)
                _ _ _ _ Hs Hu) as (Hs' & Hfuel & Hmem' & Hwg').
    exists (stages ++ [Fresh]). split; [|done].
    split_and!; rewrite ?Hmem', ?Hwg'; try done.
    + intros k st t r Hst Hne Ht. apply (Hres k st t r); try done.
      apply lookup_app_Some in Hst as [Hst|[_ Hst]]; [done|].
      apply list_lookup_singleton_Some in Hst as [_ ?]. done.
    + intros k t v Ht Hv Hst. apply (Hcompl k t v Ht Hv).
      apply lookup_app_Some in Hst as [Hst|[_ Hst]]; [done|].
      apply list_lookup_singleton_Some in Hst as [_ ?]. done.
    + intros k st t Hst Ht.
      apply lookup_app_Some in Hst as [Hst|[_ Hst]]; [by eapply Hvalid|].
      apply list_lookup_singleton_Some in Hst as [_ <-]. by left.
Qed.

Lemma Map_any_worker k stages m :
  Map_any_inv f input stages m →
  ∃ stages', Map_any_inv f input stages' (step (worker k) m) ∧
    (∀ st, stages !! k = Some st → st ≠ Gone →
       fuel stages' (step (worker k) m) < fuel stages m).
Proof.
  intros Hinv.
  pose proof Hinv as (Hs & Hlen & Hres & Hsound & Hcompl & Hvalid).
  pose proof (step_accounted (worker k) m (proj2 (proj2 (proj2 Hs)))) as Ha.
  destruct (stages !! k) as [st|] eqn:Hst.
  2:{ exists stages. split; [|done]. simpl in *.
      rewrite (shape_lookup_None _ _ _ _ _ _ Hs Hst). done. }
  destruct (shape_lookup _ _ _ _ _ _ _ Hs Hst) as (t & Ht & Hgk).
  revert Ha. simpl. rewrite Hgk.
  assert (k < length (mem m)) as Hk.
  { rewrite Hlen. by apply lookup_lt_Some in Ht. }
  assert ((k <? length (mem m)) = true) as Hrange by by apply Nat.ltb_lt.
  assert (t ∈ input) as Hin by (apply list_elem_of_lookup; by exists k).
  destruct (Hvalid k st t Hst Ht) as [-> | [-> | [-> [r Hr]]]]; simpl.
  - unfold iter.Map_func. destruct (f t) as [r|v|] eqn:Hft; simpl.
    + (* res[k] = r *)
      intros Ha. exists (<[k := Returned]> stages). split.
      * split_and!; simpl.
        -- eapply shape_update with (m := m); try done.
           simpl. by rewrite Hrange.
        -- by rewrite length_insert.
        -- intros k0 st0 t0 r0 H0 Hne Ht0 Hr0. lookup_at k H0.
           ++ rewrite list_lookup_insert_eq by done. congruence.
           ++ rewrite list_lookup_insert_ne by done. eauto.
        -- done.
        -- intros k0 t0 v0 Ht0 Hv0 H0. lookup_at k H0. eauto.
        -- intros k0 st0 t0 H0 Ht0. lookup_at k H0; eauto 6.
      * intros st ? _. simplify_eq.
        eapply fuel_update; [done | done | simpl; lia].
    + (* the transform panics *)
      intros Ha. exists (<[k := Gone]> stages). split.
      * split_and!; simpl.
        -- eapply shape_update with (m := m); try done.
        -- done.
        -- intros k0 st0 t0 r0 H0 Hne Ht0 Hr0. lookup_at k H0; [|eauto].
           congruence.
        -- intros c. destruct (slot (wg m)) as [c'|] eqn:Hc; simpl.
           ++ intros ?. simplify_eq. by apply Hsound.
           ++ intros ?. simplify_eq. simpl. by exists t.
        -- intros k0 t0 v0 Ht0 Hv0 H0. by destruct (slot (wg m)).
        -- intros k0 st0 t0 H0 Ht0. lookup_at k H0; eauto.
      * intros st ? _. simplify_eq.
        eapply fuel_update; [done | done | simpl; lia].
    + by destruct (f_ends t Hin).
  - intros _. exists stages. split; [done|]. intros st ? ?. by simplify_eq.
  - intros Ha. exists (<[k := Gone]> stages). split.
    + split_and!; simpl.
      * eapply shape_update with (m := m); try done.
      * done.
      * intros k0 st0 t0 r0 H0 Hne Ht0 Hr0. lookup_at k H0; [|eauto].
        eapply Hres; [exact Hst | done | done | done].
      * done.
      * intros k0 t0 v0 Ht0 Hv0 H0. lookup_at k H0; [|eauto]. congruence.
      * intros k0 st0 t0 H0 Ht0. lookup_at k H0; eauto.
    + intros st ? _. simplify_eq.
      eapply fuel_update; [done | done | simpl; lia].
Qed.

Lemma Map_any_reachable sched :
  ∃ stages, Map_any_inv f input stages
    (exec sched (start (iter.make (length input))
                   (imap (iter.Map_func f) input))).
Proof.
  apply (exec_invariant (fun m => ∃ stages, Map_any_inv f input stages m)).
  - intros [|k] m [stages Hm].
    + destruct (Map_any_caller _ _ Hm) as (stages' & Hm' & _). eauto.
    + destruct (Map_any_worker k _ _ Hm) as (stages' & Hm' & _). eauto.
  - exists []. apply Map_any_start.
Qed.

Lemma Map_any_drains stages m :
  Map_any_inv f input stages m → ∃ more, drained (exec more m) = true.
Proof.
  apply (drains (Map_any_inv f input) fuel). clear stages m.
  intros stages m Hm Hd.
  destruct (to_spawn m) as [|u rest] eqn:Hu.
  - destruct (shape_live input (iter.Map_func f) (draw_Map_any f) stages m)
      as (k & st & Hst & Hne); [done | apply Hm | done | done |].
    destruct (Map_any_worker k _ _ Hm) as (stages' & Hm' & Hfuel).
    exists (worker k), stages'. eauto.
  - destruct (Map_any_caller _ _ Hm) as (stages' & Hm' & Hfuel).
    exists caller, stages'. split; [done|]. apply Hfuel. by rewrite Hu.
Qed.

Lemma Map_any_final stages m :
  Map_any_inv f input stages m → drained m = true →
  (Wait m = Returns tt ∧ length (mem m) = length input ∧
   ∀ i t, input !! i = Some t →
     ∃ r, f t = Returns r ∧ mem m !! i = Some r) ∨
  (∃ t v, Wait m = Panics v ∧ t ∈ input ∧ f t = Panics v).
Proof.
  intros (Hs & Hlen & Hres & Hsound & Hcompl & Hvalid) Hd.
  destruct (shape_drained _ _ _ _ _ Hs Hd) as [Hlens Hex].
  assert (∀ k st, stages !! k = Some st → st = Gone) as Hgone.
  { intros k st Hst. destruct (Hex k st Hst) as (t' & _ & Hdraw).
    by destruct st. }
  unfold Wait. rewrite Hd.
  destruct (slot (wg m)) as [c|] eqn:Hc.
  - right. destruct (Hsound c eq_refl) as (t & Ht & Hv). by exists t, (Value c).
  - left. split_and!; [done | done |]. intros i t Ht.
    assert (stages !! i = Some Gone) as Hst.
    { destruct (stages !! i) as [st|] eqn:Hst.
      - by rewrite (Hgone _ _ Hst).
      - apply lookup_ge_None in Hst. apply lookup_lt_Some in Ht. lia. }
    destruct (f t) as [r|v|] eqn:Hft.
    + exists r. split; [done|]. by apply (Hres i Gone t r).
    + by destruct (Hcompl i t v Ht Hft Hst).
    + destruct (f_ends t); [|done]. apply list_elem_of_lookup. by exists i.
Qed.

End MapAnyFacts.

(** X1: [Map] never returns a partial result. For a transform that returns or
    panics on each element, [Map] ends under every schedule; it returns
    only when the transform returned on every element, with each value
    at the index of its element, and otherwise it panics with the
    payload of an element on which the transform panicked. *)
Theorem Map_returns_all_or_panics {T R : Type} `{!Inhabited R}
    (mp : iter.Mapper) (input : list T) (f : T → result R) :
  (∀ t, t ∈ input → f t ≠ Blocked) →
  settles (fun sched => iter.Mapper_Map mp sched input f)
    (fun r =>
       (∃ res, r = Returns res ∧ length res = length input ∧
          ∀ i t, input !! i = Some t →
            ∃ x, f t = Returns x ∧ res !! i = Some x) ∨
       (∃ t v, r = Panics v ∧ t ∈ input ∧ f t = Panics v)).
Proof.
  intros Hends sched. unfold iter.Mapper_Map, iter.ForEachIdx.
  destruct (Map_any_reachable f input Hends sched) as [stages Hm]. split.
  - destruct (Map_any_drains f input Hends _ _ Hm) as [more Hmore].
    exists more. rewrite exec_app.
    destruct (Map_any_reachable f input Hends (sched ++ more))
      as [stages' Hm'].
    rewrite exec_app in Hm'.
    destruct (Map_any_final f input Hends _ _ Hm' Hmore)
      as [(-> & _) | (t & v & -> & _)]; done.
  - destruct (drained (exec sched (start (iter.make (length input))
        (imap (iter.Map_func f) input)))) eqn:Hd.
    + right.
      destruct (Map_any_final f input Hends _ _ Hm Hd)
        as [(-> & Hlen & Hall) | (t & v & -> & Ht & Hv)].
      * left. eauto.
      * right. eauto.
    + left. unfold Wait. by rewrite Hd.
Qed.

(** One element in three whose transform panics: [Map] panics with its
    payload once the other two invocations have finished. *)
Lemma Map_returns_all_or_panics_witness :
  let f := fun x : nat =>
             if Nat.eqb x 2 then Panics "two is bad" else Returns (x * 2) in
  let sched := [caller; caller; caller; worker 1; worker 0; worker 2;
                worker 0; worker 2] in
  iter.Map sched [1; 2; 3] f = Panics "two is bad" ∧
  settles (fun sched => iter.Map sched [1; 2; 3] f)
    (fun r =>
       (∃ res, r = Returns res ∧ length res = 3 ∧
          ∀ i t, [1; 2; 3] !! i = Some t →
            ∃ x, f t = Returns x ∧ res !! i = Some x) ∨
       (∃ t v, r = Panics v ∧ t ∈ [1; 2; 3] ∧ f t = Panics v)).
Proof.
  intros f sched. split; [reflexivity|].
  apply (Map_returns_all_or_panics _ [1; 2; 3] f).
  intros t _. unfold f. by destruct (Nat.eqb t 2).
Defined.

(** ** What callers of the parallel map can rely on *)



(** X6: two maps in a row are the map of the composed transform: when [Map]
    of [g] has returned [res1] and [Map] of [h] on [res1] has returned
    [res2], [Map] of [h] after [g] on the first input ends under every
    schedule and returns [res2]. *)
Theorem Map_of_Map_is_Map_of_composition {T R Q : Type} `{!Inhabited R}
    `{!Inhabited Q} (mp : iter.Mapper) (input : list T) (g : T → R)
    (h : R → Q) (sched1 sched2 : list tick) (res1 : list R)
    (res2 : list Q) :
  iter.Mapper_Map mp sched1 input (iter.returning g) = Returns res1 →
  iter.Mapper_Map mp sched2 res1 (iter.returning h) = Returns res2 →
  settles (fun sched => iter.Mapper_Map mp sched input
                          (iter.returning (fun t => h (g t))))
    (fun r => r = Returns res2).
Proof.
  intros H1 H2.
  destruct (Mapper_Map_settles g input mp sched1) as [_ [Hb|Hr]];
    [congruence|].
  rewrite H1 in Hr. injection Hr as ->.
  destruct (Mapper_Map_settles h (g <$> input) mp sched2) as [_ [Hb|Hr]];
    [congruence|].
  rewrite H2 in Hr. injection Hr as ->.
  eapply settles_impl; [|apply Mapper_Map_settles].
  intros r ->. by rewrite <- list_fmap_compose.
Qed.

Lemma Map_of_Map_is_Map_of_composition_witness :
  let sched := [caller; caller; worker 1; worker 0; worker 0; worker 1] in
  settles (fun sched => iter.Map sched [1; 2]
                          (iter.returning (fun t => S (t * 2))))
    (fun r => r = Returns [3; 5]).
Proof.
  intros sched.
  apply (Map_of_Map_is_Map_of_composition _ [1; 2] (fun t => t * 2) S
           sched sched [2; 4] [3; 5]); reflexivity.
Defined.

(** X5: the values of [MapErr] are those of [Map]: when [MapErr] has returned
    the values [res], with whatever error, [Map] of the value part of the
    transform ends under every schedule and returns [res]. *)
Theorem MapErr_values_are_those_of_Map {T R : Type} `{!Inhabited R}
    `{!errors.Lib} (mp : iter.Mapper) (input : list T)
    (g : T → R * option errors.error) (sched1 : list tick) (res : list R)
    (errs : option errors.error) :
  iter.Mapper_MapErr mp sched1 input (iter.returning g)
    = Returns (res, errs) →
  settles (fun sched => iter.Mapper_Map mp sched input
                          (iter.returning (fun t => (g t).1)))
    (fun r => r = Returns res).
Proof.
  intros H1.
  destruct (Mapper_MapErr_settles g input mp sched1) as [_ [Hb|Hr]];
    [congruence|].
  destruct Hr as (res' & errs' & Hr & -> & _).
  rewrite H1 in Hr. injection Hr as -> _.
  apply Mapper_Map_settles.
Qed.

Lemma MapErr_values_are_those_of_Map_witness :
  let sched := [caller; caller; caller; worker 1; worker 0; worker 1;
                worker 2; worker 1; worker 1; worker 0; worker 1;
                worker 2; worker 1] in
  settles (fun sched => iter.Map sched [1; 2; 3]
                          (iter.returning (fun t => (double_but_two t).1)))
    (fun r => r = Returns [2; 4; 6]).
Proof.
  intros sched.
  apply (@MapErr_values_are_those_of_Map nat nat _ joined_Lib _ [1; 2; 3]
           double_but_two sched [2; 4; 6]
           (Some (errors.New "two is bad"))).
  reflexivity.
Defined.

(** ** What the tests of the task group rely on *)

(** X9: when some unit panics and the payload of every panicking unit
    contains the text [s], the join raises a payload that contains [s]
    and the non-raising join returns a failure whose text contains [s],
    whichever of the panics is captured. *)
Theorem one_is_propagated (ws : list work) (s : string)
    (sched : list tick) :
  (∃ v, panics v ∈ ws) →
  (∀ v, panics v ∈ ws → Contains v s = true) →
  (Wait (wave sched ws) = Blocked ∨
   ∃ v, Wait (wave sched ws) = Panics v ∧ Contains v s = true) ∧
  (WaitSafe (wave sched ws) = Blocked ∨
   ∃ c, WaitSafe (wave sched ws) = Returns (Some c) ∧
        Contains (AsError c) s = true).
Proof.
  intros [v Hv] Hall.
  destruct (wave_outcome ws sched) as [_ Hfin].
  unfold Wait, WaitSafe.
  destruct (drained (wave sched ws)) eqn:Hd; [|by split; left].
  destruct (Hfin eq_refl) as (_ & _ & Hsound & Hcompl).
  destruct (slot (wg (wave sched ws))) as [c|] eqn:Hc.
  - pose proof (Hall _ (Hsound c eq_refl)) as Hs. split; right.
    + by exists (Value c).
    + exists c. split; [done|]. by apply Contains_append_r.
  - by destruct (Hcompl v Hv).
Qed.

(** The test "one is caught by waitsafe": both payloads contain
    "bad thing". *)
Lemma one_is_propagated_witness :
  let ws := [panics "one bad thing"; panics "another bad thing"] in
  let sched := [caller; caller; worker 1; worker 0] in
  (Wait (wave sched ws) = Blocked ∨
   ∃ v, Wait (wave sched ws) = Panics v ∧ Contains v "bad thing" = true) ∧
  (WaitSafe (wave sched ws) = Blocked ∨
   ∃ c, WaitSafe (wave sched ws) = Returns (Some c) ∧
        Contains (AsError c) "bad thing" = true).
Proof.
  intros ws sched. apply (one_is_propagated ws "bad thing" sched).
  - exists "one bad thing". apply list_elem_of_here.
  - intros v Hv. apply elem_of_cons in Hv as [Hv|Hv].
    + injection Hv as ->. reflexivity.
    + apply list_elem_of_singleton in Hv. injection Hv as ->. reflexivity.
Defined.

(** ** The errors [MapErr] combines *)

Lemma mjoin_insert_nil {B : Type} (L : list (list B)) (k : nat)
    (b : list B) :
  L !! k = Some [] → mjoin (<[k := b]> L) ≡ₚ mjoin L ++ b.
Proof.
  revert k. induction L as [|a L IH]; intros [|k] Hk; simplify_eq/=.
  - apply Permutation_app_comm.
  - rewrite (IH _ Hk). by rewrite (assoc_L (++)).
Qed.

Section MapErrAnyFacts.
Context {T R : Type} `{!Inhabited R} `{!errors.Lib}.
Variable f : T → result (R * option errors.error).
Variable input : list T.
Hypothesis f_ends : ∀ t, t ∈ input → f t ≠ Blocked.

Lemma appended_by_same k st st' stages :
  stages !! k = Some st → appended st' = appended st →
  mjoin (imap (appended_by f input) (<[k := st']> stages)) =
  mjoin (imap (appended_by f input) stages).
Proof.
  intros Hk Hsame. rewrite imap_insert. f_equal.
  apply list_insert_id. rewrite list_lookup_imap, Hk. simpl.
  unfold appended_by. by rewrite Hsame.
Qed.

Lemma appended_by_new k st e stages t r :
  stages !! k = Some st → appended st = false →
  input !! k = Some t → f t = Returns (r, Some e) →
  mjoin (imap (appended_by f input) (<[k := Appended]> stages)) ≡ₚ
  mjoin (imap (appended_by f input) stages) ++ [e].
Proof.
  intros Hk Hst Ht Hft. rewrite imap_insert.
  replace (appended_by f input k Appended) with [e]
    by (unfold appended_by; by rewrite Ht, Hft).
  apply mjoin_insert_nil. rewrite list_lookup_imap, Hk. simpl.
  unfold appended_by. by rewrite Ht, Hft, Hst.
Qed.

Lemma combine_snoc order e :
  combine (order ++ [e]) = errors.Append (combine order) (Some e).
Proof. unfold combine. by rewrite fold_left_app. Qed.

Lemma MapErr_any_start :
  MapErr_any_inv f input ([], [])
    (start {| iter.res := iter.make (length input); iter.errMux := false;
              iter.errs := None |}
       (imap (iter.MapErr_func f) input)).
Proof.
  split_and!; try done.
  - by apply shape_start.
  - apply length_replicate.
Qed.

Lemma MapErr_any_caller note m :
  MapErr_any_inv f input note m →
  ∃ note', MapErr_any_inv f input note' (step caller m) ∧
    (to_spawn m ≠ [] → fuel note'.1 (step caller m) < fuel note.1 m).
Proof.
  destruct note as [stages order]. intros Hinv.
  pose proof Hinv as (Hs & Hlen & Hres & Hmux & Hvalid & Hread & Herrs
                      & Hperm & Hsound & Hcompl).
  simpl in Hs, Hres, Hmux, Hvalid, Hread, Herrs, Hperm, Hcompl.
  destruct (to_spawn m) as [|u rest] eqn:Hu.
  - exists (stages, order). split; [|done]. simpl. rewrite Hu. done.
  - destruct (shape_spawn input _ (draw_MapErr_any f) (fun _ _ => eq_refl)
                _ _ _ _ Hs Hu) as (Hs' & Hfuel & Hmem' & Hwg').
    exists (stages ++ [Fresh], order). split; [|done].
    split_and!; rewrite ?Hmem', ?Hwg'; simpl; try done.
    + intros k st t r err Hst Hne. apply (Hres k st t r err); [|done].
      apply lookup_app_Some in Hst as [Hst|[_ Hst]]; [done|].
      apply list_lookup_singleton_Some in Hst as [_ ?]. done.
    + rewrite fmap_app. csimpl. rewrite sum_list_snoc. simpl. lia.
    + intros k st t Hst Ht.
      apply lookup_app_Some in Hst as [Hst|[_ Hst]]; [by eapply Hvalid|].
      apply list_lookup_singleton_Some in Hst as [_ <-].
      destruct (f t) as [[r err]|v|]; [done | by left | by left].
    + intros k h Hst. apply (Hread k h).
      apply lookup_app_Some in Hst as [Hst|[_ Hst]]; [done|].
      apply list_lookup_singleton_Some in Hst as [_ ?]. done.
    + rewrite Hperm, imap_app. simpl. rewrite join_app. simpl.
      replace (appended_by f input (length stages + 0) Fresh)
        with ([] : list errors.error).
      * by rewrite !app_nil_r.
      * unfold appended_by.
        destruct (input !! (length stages + 0)) as [t|]; [|done].
        by destruct (f t) as [[r [e|]]|v|].
    + intros k t v Ht Hv Hst. apply (Hcompl k t v Ht Hv).
      apply lookup_app_Some in Hst as [Hst|[_ Hst]]; [done|].
      apply list_lookup_singleton_Some in Hst as [_ ?]. done.
Qed.

Lemma MapErr_any_worker k note m :
  MapErr_any_inv f input note m →
  ∃ note', MapErr_any_inv f input note' (step (worker k) m) ∧
    (∀ st, note.1 !! k = Some st → st ≠ Gone →
       iter.errMux (mem m) = false ∨ holds st = 1 →
       fuel note'.1 (step (worker k) m) < fuel note.1 m).
Proof.
  destruct note as [stages order]. intros Hinv.
  pose proof Hinv as (Hs & Hlen & Hres & Hmux & Hvalid & Hread & Herrs
                      & Hperm & Hsound & Hcompl).
  simpl in Hs, Hres, Hmux, Hvalid, Hread, Herrs, Hperm, Hcompl.
  pose proof (step_accounted (worker k) m (proj2 (proj2 (proj2 Hs)))) as Ha.
  destruct (stages !! k) as [st|] eqn:Hst.
  2:{ exists (stages, order). split; [|simpl; by rewrite Hst]. simpl in *.
      rewrite (shape_lookup_None _ _ _ _ _ _ Hs Hst). done. }
  destruct (shape_lookup _ _ _ _ _ _ _ Hs Hst) as (t & Ht & Hgk).
  revert Ha. simpl. rewrite Hgk, Hst.
  assert (k < length (iter.res (mem m))) as Hk.
  { rewrite Hlen. by apply lookup_lt_Some in Ht. }
  assert ((k <? length (iter.res (mem m))) = true) as Hrange
    by by apply Nat.ltb_lt.
  assert (t ∈ input) as Hin by (apply list_elem_of_lookup; by exists k).
  pose proof (sum_list_lookup_le holds _ _ _ Hst) as Hle.
  pose proof (b2n_le_1 (iter.errMux (mem m))) as Hb.
  assert (∀ st', sum_list (holds <$> <[k := st']> stages) + holds st =
                 Nat.b2n (iter.errMux (mem m)) + holds st') as Hsum.
  { intros st'. rewrite <- Hmux. by apply sum_list_insert. }
  pose proof (Hvalid k st t Hst Ht) as Hsome.
  assert (∀ st', appended st' = appended st →
            order ≡ₚ mjoin (imap (appended_by f input) (<[k := st']> stages)))
    as Hsame.
  { intros st' E. by rewrite (appended_by_same k st st' stages Hst E). }
  unfold draw_MapErr_any, iter.MapErr_func, iter.call.
  destruct (f t) as [[r err]|v|] eqn:Hft; [| |by destruct (f_ends t Hin)].
  - (* the transform returns *)
    destruct st; simpl.
    + (* res[k] = r *)
      intros Ha. exists (<[k := Stored]> stages, order). split.
      * split_and!; simpl.
        -- eapply shape_update with (m := m); try done.
           simpl. unfold draw_MapErr_any. rewrite Hft, Hrange.
           by destruct err.
        -- by rewrite length_insert.
        -- intros k0 st0 t0 r0 err0 H0 Hne Ht0 Hr0. lookup_at k H0.
           ++ rewrite list_lookup_insert_eq by done. congruence.
           ++ rewrite list_lookup_insert_ne by done. eauto.
        -- specialize (Hsum Stored). simpl in Hsum. lia.
        -- intros k0 st0 t0 H0 Ht0. lookup_at k H0; [|by eapply Hvalid].
           by rewrite Hft.
        -- intros k0 h H0. lookup_at k H0. eauto.
        -- done.
        -- by apply Hsame.
        -- done.
        -- intros k0 t0 v0 Ht0 Hv0 H0. lookup_at k H0. eauto.
      * intros st ? _ _. simplify_eq.
        eapply fuel_update; [done | done | simpl; lia].
    + destruct err as [e|]; simpl.
      * (* errMux.Lock() *)
        destruct (iter.errMux (mem m)) eqn:Hm; simpl.
        -- intros _. exists (stages, order). split; [done|].
           intros st ? _ [?|?]; by simplify_eq.
        -- intros Ha. exists (<[k := Locked]> stages, order). split.
           ++ split_and!; simpl.
              ** eapply shape_update with (m := m); try done;
                   simpl; unfold draw_MapErr_any; by rewrite Hft.
              ** done.
              ** intros k0 st0 t0 r0 err0 H0 Hne Ht0 Hr0.
                 lookup_at k H0; [|eauto].
                 eapply Hres; [exact Hst | done | done | done].
              ** specialize (Hsum Locked). simpl in Hsum. lia.
              ** intros k0 st0 t0 H0 Ht0. lookup_at k H0; [|by eapply Hvalid].
                 rewrite Hft. by eexists.
              ** intros k0 h H0. lookup_at k H0. eauto.
              ** done.
              ** by apply Hsame.
              ** done.
              ** intros k0 t0 v0 Ht0 Hv0 H0. lookup_at k H0. eauto.
           ++ intros st ? _ _. simplify_eq.
              eapply fuel_update; [done | done | simpl; lia].
      * (* the function returns: no error to append *)
        intros Ha. exists (<[k := Gone]> stages, order). split.
        -- split_and!; simpl.
           ++ eapply shape_update with (m := m); try done.
           ++ done.
           ++ intros k0 st0 t0 r0 err0 H0 Hne Ht0 Hr0.
              lookup_at k H0; [|eauto].
              eapply Hres; [exact Hst | done | done | done].
           ++ specialize (Hsum Gone). simpl in Hsum. lia.
           ++ intros k0 st0 t0 H0 Ht0. lookup_at k H0; [|by eapply Hvalid].
              by rewrite Hft.
           ++ intros k0 h H0. lookup_at k H0. eauto.
           ++ done.
           ++ rewrite imap_insert, list_insert_id; [done|].
              rewrite list_lookup_imap, Hst. simpl.
              unfold appended_by. by rewrite Ht, Hft.
           ++ done.
           ++ intros k0 t0 v0 Ht0 Hv0 H0. lookup_at k H0; [|eauto].
              congruence.
        -- intros st ? _ _. simplify_eq.
           eapply fuel_update; [done | done | simpl; lia].
    + (* the read of errs *)
      intros Ha. exists (<[k := Read (mem m)]> stages, order). split.
      * split_and!; simpl.
        -- eapply shape_update with (m := m); try done;
             simpl; unfold draw_MapErr_any; by rewrite Hft.
        -- done.
        -- intros k0 st0 t0 r0 err0 H0 Hne Ht0 Hr0.
           lookup_at k H0; [|eauto].
           eapply Hres; [exact Hst | done | done | done].
        -- specialize (Hsum (Read (mem m))). simpl in Hsum. lia.
        -- intros k0 st0 t0 H0 Ht0. lookup_at k H0; [|by eapply Hvalid].
           rewrite Hft. intros _. by apply Hsome.
        -- intros k0 h H0. lookup_at k H0; eauto.
        -- done.
        -- by apply Hsame.
        -- done.
        -- intros k0 t0 v0 Ht0 Hv0 H0. lookup_at k H0. eauto.
      * intros st ? _ _. simplify_eq.
        eapply fuel_update; [done | done | simpl; lia].
    + (* errs = errors.Append(errs, err) *)
      pose proof (Hread k h Hst) as Hh.
      destruct (Hsome eq_refl) as [e ->].
      intros Ha. exists (<[k := Appended]> stages, order ++ [e]). split.
      * split_and!; simpl.
        -- eapply shape_update with (m := m); try done;
             simpl; unfold draw_MapErr_any; by rewrite Hft.
        -- done.
        -- intros k0 st0 t0 r0 err0 H0 Hne Ht0 Hr0.
           lookup_at k H0; [|eauto].
           eapply Hres; [exact Hst | done | done | done].
        -- specialize (Hsum Appended). simpl in Hsum. lia.
        -- intros k0 st0 t0 H0 Ht0. lookup_at k H0; [|by eapply Hvalid].
           rewrite Hft. by eexists.
        -- intros k0 h1 H0. lookup_at k H0.
           pose proof (sum_list_lookup_le2 holds stages k0 k _ _
                         ltac:(done) H0 Hst) as Hle2.
           simpl in Hle2. lia.
        -- by rewrite combine_snoc, <- Herrs, Hh.
        -- rewrite (appended_by_new k (Read h) e stages t r Hst eq_refl
                      Ht Hft).
           by rewrite Hperm.
        -- done.
        -- intros k0 t0 v0 Ht0 Hv0 H0. lookup_at k H0. eauto.
      * intros st ? _ _. simplify_eq.
        eapply fuel_update; [done | done | simpl; lia].
    + (* errMux.Unlock() *)
      intros Ha. exists (<[k := Returned]> stages, order). split.
      * split_and!; simpl.
        -- eapply shape_update with (m := m); try done;
             simpl; unfold draw_MapErr_any; by rewrite Hft.
        -- done.
        -- intros k0 st0 t0 r0 err0 H0 Hne Ht0 Hr0.
           lookup_at k H0; [|eauto].
           eapply Hres; [exact Hst | done | done | done].
        -- specialize (Hsum Returned). simpl in Hsum, Hle. lia.
        -- intros k0 st0 t0 H0 Ht0. lookup_at k H0; [|by eapply Hvalid].
           by rewrite Hft.
        -- intros k0 h H0. lookup_at k H0. eauto.
        -- done.
        -- by apply Hsame.
        -- done.
        -- intros k0 t0 v0 Ht0 Hv0 H0. lookup_at k H0. eauto.
      * intros st ? _ _. simplify_eq.
        eapply fuel_update; [done | done | simpl; lia].
    + (* the function returns *)
      intros Ha. exists (<[k := Gone]> stages, order). split.
      * split_and!; simpl.
        -- eapply shape_update with (m := m); try done.
        -- done.
        -- intros k0 st0 t0 r0 err0 H0 Hne Ht0 Hr0.
           lookup_at k H0; [|eauto].
           eapply Hres; [exact Hst | done | done | done].
        -- specialize (Hsum Gone). simpl in Hsum. lia.
        -- intros k0 st0 t0 H0 Ht0. lookup_at k H0; [|by eapply Hvalid].
           by rewrite Hft.
        -- intros k0 h H0. lookup_at k H0. eauto.
        -- done.
        -- by apply Hsame.
        -- done.
        -- intros k0 t0 v0 Ht0 Hv0 H0. lookup_at k H0; [|eauto].
           congruence.
      * intros st ? _ _. simplify_eq.
        eapply fuel_update; [done | done | simpl; lia].
    + intros _. exists (stages, order). split; [done|].
      intros st ? ?. by simplify_eq.
  - (* the transform panics *)
    destruct Hsome as [-> | ->]; simpl.
    + intros Ha. exists (<[k := Gone]> stages, order). split.
      * split_and!; simpl.
        -- eapply shape_update with (m := m); try done.
        -- done.
        -- intros k0 st0 t0 r0 err0 H0 Hne Ht0 Hr0.
           lookup_at k H0; [|eauto]. congruence.
        -- specialize (Hsum Gone). simpl in Hsum. lia.
        -- intros k0 st0 t0 H0 Ht0. lookup_at k H0; [|by eapply Hvalid].
           rewrite Hft. by right.
        -- intros k0 h H0. lookup_at k H0. eauto.
        -- done.
        -- rewrite imap_insert, list_insert_id; [done|].
           rewrite list_lookup_imap, Hst. simpl.
           unfold appended_by. by rewrite Ht, Hft.
        -- intros c. destruct (slot (wg m)) as [c'|] eqn:Hc; simpl.
           ++ intros ?. simplify_eq. by apply Hsound.
           ++ intros ?. simplify_eq. simpl. by exists t.
        -- intros k0 t0 v0 Ht0 Hv0 H0. by destruct (slot (wg m)).
      * intros st ? _ _. simplify_eq.
        eapply fuel_update; [done | done | simpl; lia].
    + intros _. exists (stages, order). split; [done|].
      intros st ? ?. by simplify_eq.
Qed.

End MapErrAnyFacts.

Lemma appended_by_all_gone {T R : Type} `{!errors.Lib}
    (f : T → result (R * option errors.error)) (input : list T)
    (stages : list (stage (iter.vars R))) :
  length stages = length input →
  (∀ k st, stages !! k = Some st → st = Gone) →
  mjoin (imap (appended_by f input) stages) = reported f input.
Proof.
  revert stages. induction input as [|t l IH]; intros [|st stages] Hlen Hall;
    simplify_eq/=; [done|].
  rewrite (Hall 0 st eq_refl).
  rewrite (imap_ext _ (appended_by f l) stages) by done.
  rewrite IH; [|done|].
  - unfold appended_by, reported. simpl.
    by destruct (f t) as [[r [e|]]|v|].
  - intros k st' Hk. by apply (Hall (S k)).
Qed.

Section MapErrAnyRuns.
Context {T R : Type} `{!Inhabited R} `{!errors.Lib}.
Variable f : T → result (R * option errors.error).
Variable input : list T.
Hypothesis f_ends : ∀ t, t ∈ input → f t ≠ Blocked.

Lemma MapErr_any_reachable sched :
  ∃ note, MapErr_any_inv f input note
    (exec sched
       (start {| iter.res := iter.make (length input);
                 iter.errMux := false; iter.errs := None |}
          (imap (iter.MapErr_func f) input))).
Proof.
  apply (exec_invariant (fun m => ∃ note, MapErr_any_inv f input note m)).
  - intros [|k] m [note Hm].
    + destruct (MapErr_any_caller f input _ _ Hm) as (note' & Hm' & _).
      eauto.
    + destruct (MapErr_any_worker f input f_ends k _ _ Hm)
        as (note' & Hm' & _).
      eauto.
  - exists ([], []). apply MapErr_any_start.
Qed.

(** A panic of the transform cannot leave the mutex held: no run
    deadlocks on it. *)
Lemma MapErr_any_drains note m :
  MapErr_any_inv f input note m → ∃ more, drained (exec more m) = true.
Proof.
  apply (drains (MapErr_any_inv f input) (fun note m => fuel note.1 m)).
  clear note m. intros note m Hm Hd.
  destruct (to_spawn m) as [|u rest] eqn:Hu.
  - destruct (iter.errMux (mem m)) eqn:Hmux.
    + pose proof Hm as (Hs & Hlen & Hres & Hsum & Hrest).
      rewrite Hmux in Hsum. simpl in Hsum.
      destruct (sum_list_positive holds note.1) as (k & st & Hst & Hpos);
        [lia|].
      destruct (MapErr_any_worker f input f_ends k _ _ Hm)
        as (note' & Hm' & Hfuel).
      exists (worker k), note'. split; [done|].
      apply (Hfuel st Hst).
      * intros ->. simpl in Hpos. lia.
      * right. destruct st; simpl in Hpos; (done || lia).
    + destruct (shape_live input (iter.MapErr_func f) (draw_MapErr_any f)
                  note.1 m)
        as (k & st & Hst & Hne); [done | apply Hm | done | done |].
      destruct (MapErr_any_worker f input f_ends k _ _ Hm)
        as (note' & Hm' & Hfuel).
      exists (worker k), note'. split; [done|]. apply (Hfuel st); auto.
  - destruct (MapErr_any_caller f input _ _ Hm) as (note' & Hm' & Hfuel).
    exists caller, note'. split; [done|]. apply Hfuel. by rewrite Hu.
Qed.

Lemma MapErr_any_final note m :
  MapErr_any_inv f input note m → drained m = true →
  (Wait m = Returns tt ∧
   length (iter.res (mem m)) = length input ∧
   (∀ i t, input !! i = Some t →
      ∃ x err, f t = Returns (x, err) ∧ iter.res (mem m) !! i = Some x) ∧
   ∃ order, order ≡ₚ reported f input ∧
            iter.errs (mem m) = combine order) ∨
  (∃ t v, Wait m = Panics v ∧ t ∈ input ∧ f t = Panics v).
Proof.
  destruct note as [stages order].
  intros (Hs & Hlen & Hres & Hmux & Hvalid & Hread & Herrs & Hperm
          & Hsound & Hcompl) Hd.
  simpl in Hs, Hres, Hmux, Hvalid, Hread, Herrs, Hperm, Hcompl.
  destruct (shape_drained _ _ _ _ _ Hs Hd) as [Hlens Hex].
  assert (∀ k st, stages !! k = Some st → st = Gone) as Hgone.
  { intros k st Hst. destruct (Hex k st Hst) as (t' & _ & Hdraw).
    unfold draw_MapErr_any in Hdraw.
    destruct st; try done; by destruct (f t') as [[? [?|]]|?|]. }
  unfold Wait. rewrite Hd.
  destruct (slot (wg m)) as [c|] eqn:Hc.
  - right. destruct (Hsound c eq_refl) as (t & Ht & Hv).
    by exists t, (Value c).
  - left. split_and!; [done | done | |].
    + intros i t Ht.
      assert (stages !! i = Some Gone) as Hst.
      { destruct (stages !! i) as [st|] eqn:Hst.
        - by rewrite (Hgone _ _ Hst).
        - apply lookup_ge_None in Hst. apply lookup_lt_Some in Ht. lia. }
      destruct (f t) as [[x err]|v|] eqn:Hft.
      * exists x, err. split; [done|]. by apply (Hres i Gone t x err).
      * by destruct (Hcompl i t v Ht Hft Hst).
      * destruct (f_ends t); [|done]. apply list_elem_of_lookup.
        by exists i.
    + exists order. split; [|done].
      by rewrite Hperm, (appended_by_all_gone f input stages).
Qed.

End MapErrAnyRuns.

(** X2: [MapErr] never returns a partial result either, and its mutex never
    deadlocks it. For a transform that returns or panics on each element,
    [MapErr] ends under every schedule; it returns only when the
    transform returned on every element, with each value at the index of
    its element and with the errors reported combined one by one, each
    once, in some order; otherwise it panics with the payload of an
    element on which the transform panicked. *)
Theorem MapErr_returns_all_or_panics {T R : Type} `{!Inhabited R}
    `{!errors.Lib} (mp : iter.Mapper) (input : list T)
    (f : T → result (R * option errors.error)) :
  (∀ t, t ∈ input → f t ≠ Blocked) →
  settles (fun sched => iter.Mapper_MapErr mp sched input f)
    (fun r =>
       (∃ res errs order, r = Returns (res, errs) ∧
          length res = length input ∧
          (∀ i t, input !! i = Some t →
             ∃ x err, f t = Returns (x, err) ∧ res !! i = Some x) ∧
          order ≡ₚ reported f input ∧ errs = combine order) ∨
       (∃ t v, r = Panics v ∧ t ∈ input ∧ f t = Panics v)).
Proof.
  intros Hends sched. unfold iter.Mapper_MapErr, iter.ForEachIdx.
  destruct (MapErr_any_reachable f input Hends sched) as [note Hm]. split.
  - destruct (MapErr_any_drains f input Hends _ _ Hm) as [more Hmore].
    exists more. rewrite exec_app.
    destruct (MapErr_any_reachable f input Hends (sched ++ more))
      as [note' Hm'].
    rewrite exec_app in Hm'.
    destruct (MapErr_any_final f input Hends _ _ Hm' Hmore)
      as [(-> & _) | (t & v & -> & _)]; done.
  - destruct (drained (exec sched
        (start {| iter.res := iter.make (length input);
                  iter.errMux := false; iter.errs := None |}
           (imap (iter.MapErr_func f) input)))) eqn:Hd.
    + right.
      destruct (MapErr_any_final f input Hends _ _ Hm Hd)
        as [(-> & Hlen & Hall & order & Hperm & Hc)
           | (t & v & -> & Ht & Hv)].
      * left. eauto 10.
      * right. eauto.
    + left. unfold Wait. by rewrite Hd.
Qed.

(** One element panics while another holds the mutex and a third waits
    for it: [MapErr] still ends, with the panic. *)
Lemma MapErr_returns_all_or_panics_witness :
  let f := fun x : nat =>
             if Nat.eqb x 2 then Panics "two is bad"
             else Returns (x, Some (errors.New "odd")) in
  let sched := [caller; caller; caller; worker 0; worker 0; worker 2;
                worker 2; worker 1; worker 0; worker 0; worker 0;
                worker 0; worker 2; worker 2; worker 2; worker 2;
                worker 2] in
  iter.MapErr sched [1; 2; 3] f = Panics "two is bad" ∧
  settles (fun sched => iter.MapErr sched [1; 2; 3] f)
    (fun r =>
       (∃ res errs order, r = Returns (res, errs) ∧
          length res = 3 ∧
          (∀ i t, [1; 2; 3] !! i = Some t →
             ∃ x err, f t = Returns (x, err) ∧ res !! i = Some x) ∧
          order ≡ₚ reported f [1; 2; 3] ∧ errs = combine order) ∨
       (∃ t v, r = Panics v ∧ t ∈ [1; 2; 3] ∧ f t = Panics v)).
Proof.
  intros f sched. split; [reflexivity|].
  apply (@MapErr_returns_all_or_panics nat nat _ joined_Lib _ [1; 2; 3] f).
  intros t _. unfold f. by destruct (Nat.eqb t 2).
Defined.

(** X3: no error is lost and none is combined twice. For a transform that
    returns on every element, [MapErr] ends under every schedule and the
    error it returns is the result of [errors.Append] of the reported
    errors one by one, starting from nil, each exactly once, in some
    order. *)
Theorem MapErr_combines_each_error_once {T R : Type} `{!Inhabited R}
    `{!errors.Lib} (mp : iter.Mapper) (input : list T)
    (g : T → R * option errors.error) :
  settles (fun sched => iter.Mapper_MapErr mp sched input (iter.returning g))
    (fun r => ∃ res errs order, r = Returns (res, errs) ∧
       order ≡ₚ omap (fun t => (g t).2) input ∧
       errs = combine order).
Proof.
  assert (reported (iter.returning g) input = omap (fun t => (g t).2) input)
    as Hrep.
  { unfold reported. apply list_omap_ext, Forall2_same_length_lookup.
    split; [done|]. intros i t t' Ht Ht'. simplify_eq.
    unfold iter.returning. by destruct (g t) as [r [e|]]. }
  eapply settles_impl;
    [|apply (MapErr_returns_all_or_panics mp input (iter.returning g))].
  - intros r [(res & errs & order & -> & _ & _ & Hperm & ->)
             | (t & v & _ & _ & Hv)]; [|done].
    exists res, (combine order), order. by rewrite <- Hrep.
  - done.
Qed.

(** X7: [Map] can be applied to an input in pieces: when [Map] has returned
    [res1] for [input1] and [res2] for [input2], [Map] of the whole
    [input1 ++ input2] ends under every schedule and returns
    [res1 ++ res2]. *)
Theorem Map_of_append {T R : Type} `{!Inhabited R} (mp : iter.Mapper)
    (input1 input2 : list T) (g : T → R) (sched1 sched2 : list tick)
    (res1 res2 : list R) :
  iter.Mapper_Map mp sched1 input1 (iter.returning g) = Returns res1 →
  iter.Mapper_Map mp sched2 input2 (iter.returning g) = Returns res2 →
  settles (fun sched => iter.Mapper_Map mp sched (input1 ++ input2)
                          (iter.returning g))
    (fun r => r = Returns (res1 ++ res2)).
Proof.
  intros H1 H2.
  destruct (Mapper_Map_settles g input1 mp sched1) as [_ [Hb|Hr]];
    [congruence|].
  rewrite H1 in Hr. injection Hr as ->.
  destruct (Mapper_Map_settles g input2 mp sched2) as [_ [Hb|Hr]];
    [congruence|].
  rewrite H2 in Hr. injection Hr as ->.
  eapply settles_impl; [|apply Mapper_Map_settles].
  intros r ->. by rewrite fmap_app.
Qed.

Lemma Map_of_append_witness :
  settles (fun sched => iter.Map sched ([1; 2] ++ [3])
                          (iter.returning (fun t => t * 2)))
    (fun r => r = Returns ([2; 4] ++ [6])).
Proof.
  apply (Map_of_append _ [1; 2] [3] (fun t => t * 2)
           [caller; caller; worker 1; worker 0; worker 0; worker 1]
           [caller; worker 0; worker 0] [2; 4] [6]); reflexivity.
Defined.
